(** * azure-queue-consumer: the polling consumer of [src/index.js]

    A shallow embedding of the [Consumer] class and a verification of the
    behaviour its specification describes.

    The consumer is event driven.  Everything it does happens inside a
    callback: a call of [start] or [stop] by the owner, the completion of a
    [getMessages] call, the expiry of a [setTimeout] timer, the handler's
    [done] callback, the completion of a [deleteMessage] call.  The embedding
    therefore is a labelled transition system: a [State] holds the consumer
    object together with the callbacks that are still outstanding, an [Event]
    is one callback being run, and [step] runs the JavaScript of that
    callback to completion.  What the consumer does to the outside world
    (signals emitted, queue-service calls, timers set) is recorded in a log,
    most recent action first. *)

From Stdlib Require Import ZArith String List Bool Lia.
From stdpp Require Import base option list.
Import ListNotations.

Local Open Scope string_scope.
Local Open Scope Z_scope.
Local Open Scope list_scope.
Local Open Scope bool_scope.

(** ** JavaScript values the consumer looks at *)

(** A JavaScript number that is either integer valued or [NaN].  The options
    of the consumer are counts and whole seconds. *)
Inductive JsNumber :=
| NaN
| Num (z : Z).

(** An error object: [name] and [message] of [Error.prototype], and the
    [statusCode] and [code] the queue service attaches to a failed call
    ([None] where the property is undefined). *)
Record JsError := {
  name : string;
  message : string;
  statusCode : option Z;
  code : option string
}.

(** [new Error(msg)]. *)
Definition Error (msg : string) : JsError :=
  {| name := "Error"; message := msg; statusCode := None; code := None |}.

(** [class QueueServiceError extends Error]: the constructor sets
    [this.name = this.constructor.name]; the message is the one argument it
    is given in this file. *)
Definition QueueServiceError_name : string := "QueueServiceError".

Definition QueueServiceError (msg : string) : JsError :=
  {| name := QueueServiceError_name; message := msg;
     statusCode := None; code := None |}.

(** A function body either completes or throws. *)
Inductive Completion (A : Type) :=
| Normal (a : A)
| Throw (e : JsError).
Arguments Normal {A} a.
Arguments Throw {A} e.

(** A message of the queue service. *)
Record Message := {
  messageId : string;
  popReceipt : string;
  messageText : string
}.

(** What one call [handleMessage(message, done)] does before it returns: it
    throws an error object without having called [done], or it has called
    [done(err)] ([None] for a falsy [err]) and returns, or it returns with
    [done] still to be called.  A handler calls [done] at most once. *)
Inductive HandlerResult :=
| Throws (err : JsError)
| Done (err : option JsError)
| Pending.

Definition Handler : Type := Message -> HandlerResult.

(** ** Options and validation *)

Module Options.
(** The options object.  A property that is absent reads [undefined],
    here [None]. *)
Record t := {
  queueName : option string;
  handleMessage : option Handler;
  batchSize : option JsNumber;
  pollDelaySeconds : option JsNumber;
  maximumExecutionTimeSeconds : option JsNumber;
  authenticationErrorTimeoutSeconds : option JsNumber
}.
End Options.

(** Truthiness of a string-valued and of a number-valued property. *)
Definition truthy_string (v : option string) : bool :=
  match v with
  | Some s => negb (String.eqb s "")
  | None => false
  end.

Definition truthy_number (v : option JsNumber) : bool :=
  match v with
  | Some (Num z) => negb (z =? 0)
  | Some NaN => false
  | None => false
  end.

(** [v > k] and [v < k]: [undefined] converts to [NaN], and every comparison
    with [NaN] is false. *)
Definition js_gt (v : option JsNumber) (k : Z) : bool :=
  match v with
  | Some (Num z) => k <? z
  | _ => false
  end.

Definition js_lt (v : option JsNumber) (k : Z) : bool :=
  match v with
  | Some (Num z) => z <? k
  | _ => false
  end.

(** [v || d] for a number-valued property and a numeric default. *)
Definition js_or (v : option JsNumber) (d : Z) : Z :=
  match v with
  | Some (Num z) => if z =? 0 then d else z
  | _ => d
  end.

Definition requiredOptions : list string := ["queueName"; "handleMessage"].

(** [!options[option]] for the two required options. *)
Definition missing_option (options : Options.t) (option : string) : bool :=
  if String.eqb option "queueName" then
    negb (truthy_string (Options.queueName options))
  else if String.eqb option "handleMessage" then
    match Options.handleMessage options with Some _ => false | None => true end
  else true.

Definition validate (options : Options.t) : Completion unit :=
  match List.find (missing_option options) requiredOptions with
  | Some option =>
      Throw (Error ("Missing queue service consumer option [" ++ option ++ "]."))
  | None =>
      if js_gt (Options.batchSize options) 10
         || js_lt (Options.batchSize options) 1
      then Throw (Error "Queue batchSize option must be between 1 and 10.")
      else Normal tt
  end.

(** [===] on a property that may be undefined. *)
Definition strict_eq_number (v : option Z) (k : Z) : bool :=
  match v with Some z => z =? k | None => false end.

Definition strict_eq_string (v : option string) (k : string) : bool :=
  match v with Some s => String.eqb s k | None => false end.

Definition isAuthenticationError (err : JsError) : bool :=
  strict_eq_number (statusCode err) 403
  || strict_eq_string (code err) "CredentialsError".

(** ** The consumer object *)

Record Consumer := {
  queueName : option string;
  handleMessage : option Handler;
  stopped : bool;
  isWaiting : bool;
  batchSize : Z;
  visibilityTimeout : option Z;
  pollDelaySeconds : Z;
  maximumExecutionTimeSeconds : Z;
  authenticationErrorTimeoutSeconds : Z
}.

(** [new Consumer(options)].  The queue-service client
    ([options.queueService] or a default one) is the environment of the
    transition system below and is no field here. *)
Definition construct (options : Options.t) : Completion Consumer :=
  match validate options with
  | Throw e => Throw e
  | Normal _ =>
      Normal {|
        queueName := Options.queueName options;
        handleMessage := Options.handleMessage options;
        stopped := true;
        isWaiting := false;
        batchSize := js_or (Options.batchSize options) 1;
        visibilityTimeout := None;
        pollDelaySeconds := js_or (Options.pollDelaySeconds options) 1;
        maximumExecutionTimeSeconds :=
          js_or (Options.maximumExecutionTimeSeconds options) 10;
        authenticationErrorTimeoutSeconds :=
          js_or (Options.authenticationErrorTimeoutSeconds options) 10
      |}
  end.

(** [Consumer.create]. *)
Definition create (options : Options.t) : Completion Consumer :=
  construct options.

(** ** Observable actions *)

(** The signals of the event emitter. *)
Inductive Signal :=
| SigError (err : JsError) (msg : option Message)
| SigProcessingError (err : JsError) (msg : Message)
| SigMessageReceived (msg : Message)
| SigMessageProcessed (msg : Message)
| SigResponseProcessed
| SigStopped.

Record ReceiveParams := {
  numOfMessages : Z;
  maximumExecutionTimeInMs : Z;
  receiveVisibilityTimeout : option Z
}.

(** What the consumer does to its environment. *)
Inductive Action :=
| Emit (sig : Signal)
| GetMessages (queue : option string) (params : ReceiveParams)
| DeleteMessage (queue : option string) (id receipt : string)
| SetTimeout (ms : Z).

(** ** Outstanding callbacks *)

(** Where the [async.series] of one message stands: the handler has been
    called and [done] is awaited, [deleteMessage] has been called and its
    callback is awaited, or the final callback of the series has run. *)
Inductive Stage :=
| Handling
| Deleting
| Resolved.

(** One [async.each] over a response: its items and the number of iterator
    callbacks that have been called. *)
Record Batch := {
  items : list (Message * Stage);
  completed : nat
}.

Record State := {
  this : Consumer;
  pendingFetches : nat;      (* [getMessages] calls without a response yet *)
  timers : list Z;           (* [setTimeout]s not yet expired, their delays *)
  batches : list Batch;      (* [async.each] calls not yet finished *)
  log : list Action          (* most recent first *)
}.

(** The world around a consumer that has just been constructed. *)
Definition initial (c : Consumer) : State :=
  {| this := c; pendingFetches := 0; timers := []; batches := []; log := [] |}.

Definition set_stopped (b : bool) (st : State) : State :=
  {| this :=
       {| queueName := queueName (this st);
          handleMessage := handleMessage (this st);
          stopped := b;
          isWaiting := isWaiting (this st);
          batchSize := batchSize (this st);
          visibilityTimeout := visibilityTimeout (this st);
          pollDelaySeconds := pollDelaySeconds (this st);
          maximumExecutionTimeSeconds := maximumExecutionTimeSeconds (this st);
          authenticationErrorTimeoutSeconds :=
            authenticationErrorTimeoutSeconds (this st) |};
     pendingFetches := pendingFetches st;
     timers := timers st;
     batches := batches st;
     log := log st |}.

Definition set_pendingFetches (n : nat) (st : State) : State :=
  {| this := this st; pendingFetches := n; timers := timers st;
     batches := batches st; log := log st |}.

Definition set_timers (ts : list Z) (st : State) : State :=
  {| this := this st; pendingFetches := pendingFetches st; timers := ts;
     batches := batches st; log := log st |}.

Definition set_batches (bs : list Batch) (st : State) : State :=
  {| this := this st; pendingFetches := pendingFetches st;
     timers := timers st; batches := bs; log := log st |}.

Definition record (a : Action) (st : State) : State :=
  {| this := this st; pendingFetches := pendingFetches st;
     timers := timers st; batches := batches st; log := a :: log st |}.

(** ** The environment's interface *)

(** [this.emit(signal, ...)].  The emission is logged; the listeners are
    the owner's, who is taken to listen to every signal. *)
Definition emit (sig : Signal) (st : State) : State :=
  record (Emit sig) st.

(** [queueService.getMessages(queue, params, callback)]: the call is made
    and its callback is outstanding. *)
Definition getMessages (queue : option string) (params : ReceiveParams)
    (st : State) : State :=
  set_pendingFetches (S (pendingFetches st)) (record (GetMessages queue params) st).

(** [setTimeout(callback, ms)]. *)
Definition setTimeout (ms : Z) (st : State) : State :=
  set_timers (timers st ++ [ms]) (record (SetTimeout ms) st).

(** ** The methods of [Consumer] *)

Definition _poll (st : State) : State :=
  let receiveParams :=
    {| numOfMessages := batchSize (this st);
       maximumExecutionTimeInMs := maximumExecutionTimeSeconds (this st) * 1000;
       receiveVisibilityTimeout := visibilityTimeout (this st) |} in
  if negb (stopped (this st)) then
    getMessages (queueName (this st)) receiveParams st
  else
    emit SigStopped st.

Definition start (st : State) : State :=
  if stopped (this st) then _poll (set_stopped false st) else st.

Definition stop (st : State) : State :=
  set_stopped true st.

(** The stage of item [i] of batch [b]. *)
Definition item_of (b i : nat) (st : State) : option (Message * Stage) :=
  match batches st !! b with
  | Some bt => items bt !! i
  | None => None
  end.

Definition set_stage (b i : nat) (msg : Message) (stage : Stage)
    (st : State) : State :=
  match batches st !! b with
  | Some bt =>
      set_batches
        (<[b := {| items := <[i := (msg, stage)]> (items bt);
                   completed := completed bt |}]> (batches st)) st
  | None => st
  end.

(** The callback [async.each] hands to its iterator, called as [cb()] for
    item [i] of batch [b]: it counts, and when every item has called back it
    runs the final callback of [_handleQueueServiceResponse]. *)
Definition each_callback (b i : nat) (msg : Message) (st : State) : State :=
  match batches st !! b with
  | Some bt =>
      let bt' := {| items := <[i := (msg, Resolved)]> (items bt);
                    completed := S (completed bt) |} in
      if (completed bt' =? length (items bt'))%nat then
        _poll (emit SigResponseProcessed
                 (set_batches (delete b (batches st)) st))
      else
        set_batches (<[b := bt']> (batches st)) st
  | None => st
  end.

(** The final callback of the [async.series] in [_processMessage]. *)
Definition series_callback (b i : nat) (msg : Message) (err : option JsError)
    (st : State) : State :=
  let st' :=
    match err with
    | Some e =>
        if String.eqb (name e) QueueServiceError_name then
          emit (SigError e (Some msg)) st
        else
          emit (SigProcessingError e msg) st
    | None => emit (SigMessageProcessed msg) st
    end in
  each_callback b i msg st'.

(** [_deleteMessage(message, cb)] up to the call of the queue service, and
    the callback it passes to [deleteMessage]. *)
Definition _deleteMessage (b i : nat) (msg : Message) (st : State) : State :=
  set_stage b i msg Deleting
    (record (DeleteMessage (queueName (this st)) (messageId msg) (popReceipt msg)) st).

Definition _deleteMessage_callback (b i : nat) (msg : Message)
    (err : option JsError) (st : State) : State :=
  match err with
  | Some e =>
      series_callback b i msg
        (Some (QueueServiceError
                 ("Queue service delete message failed: " ++ message e))) st
  | None => series_callback b i msg None st
  end.

(** The [done] callback of the first task of the series. *)
Definition handleMessage_callback (b i : nat) (msg : Message)
    (err : option JsError) (st : State) : State :=
  match err with
  | Some e => series_callback b i msg (Some e) st
  | None => _deleteMessage b i msg st
  end.

(** [consumer.handleMessage(message, done)]; calling a property that is
    undefined throws a [TypeError]. *)
Definition call_handleMessage (c : Consumer) (msg : Message) : HandlerResult :=
  match handleMessage c with
  | Some h => h msg
  | None =>
      Throws {| name := "TypeError";
                message := "consumer.handleMessage is not a function";
                statusCode := None; code := None |}
  end.

Definition _processMessage (b i : nat) (msg : Message) (st : State) : State :=
  let st1 := emit (SigMessageReceived msg) st in
  match call_handleMessage (this st1) msg with
  | Throws err =>
      handleMessage_callback b i msg
        (Some (Error ("Unexpected message handler failure: " ++ message err))) st1
  | Done err => handleMessage_callback b i msg err st1
  | Pending => st1
  end.

(** [async.each(response, this._processMessage, final)]: the iterator is
    called on every item in turn. *)
Fixpoint each_from (b i : nat) (response : list Message) (st : State) : State :=
  match response with
  | [] => st
  | msg :: rest => each_from b (S i) rest (_processMessage b i msg st)
  end.

Definition each (response : list Message) (st : State) : State :=
  let b := length (batches st) in
  let bt := {| items := map (fun msg => (msg, Handling)) response;
               completed := 0 |} in
  each_from b 0 response (set_batches (batches st ++ [bt]) st).

Definition _handleQueueServiceResponse (err : option JsError)
    (response : option (list Message)) (st : State) : State :=
  let st1 :=
    match err with
    | Some e =>
        emit (SigError
                (QueueServiceError
                   ("Queue service receive message failed: " ++ message e))
                None) st
    | None => st
    end in
  match response with
  | Some (msg :: rest) => each (msg :: rest) st1
  | _ =>
      match err with
      | Some e =>
          if isAuthenticationError e then
            setTimeout (authenticationErrorTimeoutSeconds (this st1) * 1000) st1
          else
            setTimeout (pollDelaySeconds (this st1) * 1000) st1
      | None => setTimeout (pollDelaySeconds (this st1) * 1000) st1
      end
  end.

(** ** The transition system *)

Inductive Event :=
| EStart
| EStop
| EFetchDone (err : option JsError) (response : option (list Message))
| ETimerFired (i : nat)
| EHandlerDone (b i : nat) (err : option JsError)
| EDeleteDone (b i : nat) (err : option JsError).

(** One callback run to completion; [None] when no such callback is
    outstanding.  The queue service answers each call once, a timer expires
    once, and a message is in stage [Handling] or [Deleting] exactly while
    the [done] of its handler or the callback of its delete call is
    awaited. *)
Definition step (st : State) (ev : Event) : option State :=
  match ev with
  | EStart => Some (start st)
  | EStop => Some (stop st)
  | EFetchDone err response =>
      match pendingFetches st with
      | O => None
      | S n => Some (_handleQueueServiceResponse err response
                       (set_pendingFetches n st))
      end
  | ETimerFired i =>
      match timers st !! i with
      | Some _ => Some (_poll (set_timers (delete i (timers st)) st))
      | None => None
      end
  | EHandlerDone b i err =>
      match item_of b i st with
      | Some (msg, Handling) => Some (handleMessage_callback b i msg err st)
      | _ => None
      end
  | EDeleteDone b i err =>
      match item_of b i st with
      | Some (msg, Deleting) => Some (_deleteMessage_callback b i msg err st)
      | _ => None
      end
  end.

Fixpoint run (st : State) (evs : list Event) : option State :=
  match evs with
  | [] => Some st
  | ev :: evs' =>
      match step st ev with
      | Some st' => run st' evs'
      | None => None
      end
  end.

(** * Vocabulary of the verification *)

(** ** Construction *)

(** A number-valued option is out of the range 1..10 when it is a number
    below 1 or above 10. *)
Definition out_of_range (v : option JsNumber) : Prop :=
  exists z, v = Some (Num z) /\ (z < 1 \/ 10 < z).

Definition rejected (options : Options.t) : Prop :=
  exists e, construct options = Throw e.

(** ** Counting what was logged *)

Fixpoint count {A : Type} (p : A -> bool) (l : list A) : nat :=
  match l with
  | [] => 0
  | x :: l' => ((if p x then 1 else 0) + count p l')%nat
  end.

Definition is_fetch (a : Action) : bool :=
  match a with GetMessages _ _ => true | _ => false end.

Definition is_delete (a : Action) : bool :=
  match a with DeleteMessage _ _ _ => true | _ => false end.

Definition is_timeout (a : Action) : bool :=
  match a with SetTimeout _ => true | _ => false end.

Definition is_response_processed (a : Action) : bool :=
  match a with Emit SigResponseProcessed => true | _ => false end.

Definition is_processing_error (a : Action) : bool :=
  match a with Emit (SigProcessingError _ _) => true | _ => false end.

(** The signal that ends the processing of one message. *)
Definition is_outcome (a : Action) : bool :=
  match a with
  | Emit (SigError _ (Some _)) => true
  | Emit (SigProcessingError _ _) => true
  | Emit (SigMessageProcessed _) => true
  | _ => false
  end.

(** The messages announced by ['message_received'], most recent first. *)
Fixpoint received (l : list Action) : list Message :=
  match l with
  | [] => []
  | Emit (SigMessageReceived msg) :: l' => msg :: received l'
  | _ :: l' => received l'
  end.

(** What [_poll] logs. *)
Definition poll_action (c : Consumer) : Action :=
  if stopped c then Emit SigStopped
  else GetMessages (queueName c)
         {| numOfMessages := batchSize c;
            maximumExecutionTimeInMs := maximumExecutionTimeSeconds c * 1000;
            receiveVisibilityTimeout := visibilityTimeout c |}.

(** ** Poll chains *)

(** The poll chains of a state: every outstanding fetch, timer and batch
    ends in one call of [_poll]. *)
Definition chains (st : State) : nat :=
  (pendingFetches st + length (timers st) + length (batches st))%nat.

(** [loop_frame st st']: from [st] to [st'] the consumer object and the
    timers are unchanged, no timer was set, no poll chain was added, and a
    stopped consumer has made no fetch. *)
Definition loop_frame (st st' : State) : Prop :=
  this st' = this st
  /\ timers st' = timers st
  /\ (pendingFetches st' + length (batches st')
      <= pendingFetches st + length (batches st))%nat
  /\ count is_timeout (log st') = count is_timeout (log st)
  /\ (stopped (this st) = true ->
      pendingFetches st' = pendingFetches st
      /\ count is_fetch (log st') = count is_fetch (log st)).

(** [start] is allowed when the consumer is running, where it does nothing,
    or when no fetch, timer or batch is outstanding. *)
Definition start_allowed (st : State) (ev : Event) : bool :=
  match ev with
  | EStart => negb (stopped (this st)) || (chains st =? 0)%nat
  | _ => true
  end.

(** A run in which every [start] is allowed. *)
Fixpoint guarded_run (st : State) (evs : list Event) : option State :=
  match evs with
  | [] => Some st
  | ev :: evs' =>
      if start_allowed st ev then
        match step st ev with
        | Some st' => guarded_run st' evs'
        | None => None
        end
      else None
  end.

(** ** The fetch callback *)

Definition no_messages (response : option (list Message)) : Prop :=
  response = None \/ response = Some [].

(** ** Dispatch in closed form *)

(** While [async.each] walks a response, the handler is called on each
    message in turn, and what a handler does before it returns fixes the
    stage its message is left in and the actions logged for it. *)
Definition resolved (it : Message * Stage) : bool :=
  match snd it with Resolved => true | _ => false end.

Definition sync_stage (c : Consumer) (msg : Message) : Stage :=
  match call_handleMessage c msg with
  | Throws _ => Resolved
  | Done (Some _) => Resolved
  | Done None => Deleting
  | Pending => Handling
  end.

Definition sync_item (c : Consumer) (msg : Message) : Message * Stage :=
  (msg, sync_stage c msg).

(** The signal for a failure [e] of the processing of [msg]. *)
Definition failure_signal (e : JsError) (msg : Message) : Signal :=
  if String.eqb (name e) QueueServiceError_name
  then SigError e (Some msg) else SigProcessingError e msg.

Definition sync_actions (c : Consumer) (msg : Message) : list Action :=
  match call_handleMessage c msg with
  | Throws err =>
      [Emit (failure_signal
               (Error ("Unexpected message handler failure: " ++ message err)) msg);
       Emit (SigMessageReceived msg)]
  | Done (Some e) =>
      [Emit (failure_signal e msg); Emit (SigMessageReceived msg)]
  | Done None =>
      [DeleteMessage (queueName c) (messageId msg) (popReceipt msg);
       Emit (SigMessageReceived msg)]
  | Pending => [Emit (SigMessageReceived msg)]
  end.

Fixpoint sync_log (c : Consumer) (response : list Message) (l : list Action)
    : list Action :=
  match response with
  | [] => l
  | msg :: rest => sync_log c rest (sync_actions c msg ++ l)
  end.

Definition set_log (l : list Action) (st : State) : State :=
  {| this := this st; pendingFetches := pendingFetches st;
     timers := timers st; batches := batches st; log := l |}.

(** The state a dispatch ends in: every message has been handed to the
    handler; when all of them were resolved before their handler returned
    the batch is already over, otherwise it is outstanding. *)
Definition dispatched (response : list Message) (st : State) : State :=
  let its := map (sync_item (this st)) response in
  let st1 := set_log (sync_log (this st) response (log st)) st in
  if forallb resolved its then
    _poll (emit SigResponseProcessed st1)
  else
    set_batches
      (batches st ++ [{| items := its; completed := count resolved its |}]) st1.

(** The state in the middle of the walk over a response received in [st]:
    [done] has been handed over, [rest] is still to come. *)
Definition walking (st : State) (done rest : list Message) : State :=
  {| this := this st;
     pendingFetches := pendingFetches st;
     timers := timers st;
     batches :=
       batches st ++
         [{| items := map (sync_item (this st)) done
                      ++ map (fun msg => (msg, Handling)) rest;
             completed := count resolved (map (sync_item (this st)) done) |}];
     log := sync_log (this st) done (log st) |}.

(** ** Batches in flight *)

(** The iterator callbacks of a batch that are still to come. *)
Definition unresolved (bt : Batch) : nat :=
  (length (items bt) - count resolved (items bt))%nat.

Fixpoint in_flight (bs : list Batch) : nat :=
  match bs with
  | [] => 0
  | bt :: bs' => (unresolved bt + in_flight bs')%nat
  end.

(** A batch that is outstanding has counted exactly the items that are
    resolved, and has an item that is not. *)
Definition batch_ok (bt : Batch) : Prop :=
  completed bt = count resolved (items bt)
  /\ (completed bt < length (items bt))%nat.

Definition wf (st : State) : Prop := Forall batch_ok (batches st).

(** The tally of a state: batches that are over or in flight, and messages
    that are resolved or in flight. *)
Definition batches_seen (st : State) : nat :=
  (count is_response_processed (log st) + length (batches st))%nat.

Definition messages_seen (st : State) : nat :=
  (count is_outcome (log st) + in_flight (batches st))%nat.

(** The batches and the messages an event brings. *)
Definition batches_of (ev : Event) : nat :=
  match ev with EFetchDone _ (Some (_ :: _)) => 1 | _ => 0 end.

Definition messages_of (ev : Event) : nat :=
  match ev with EFetchDone _ (Some l) => length l | _ => 0 end.

Fixpoint fetched_batches (evs : list Event) : nat :=
  match evs with
  | [] => 0
  | ev :: evs' => (batches_of ev + fetched_batches evs')%nat
  end.

Fixpoint fetched_messages (evs : list Event) : nat :=
  match evs with
  | [] => 0
  | ev :: evs' => (messages_of ev + fetched_messages evs')%nat
  end.

(** [barrier st st' nb nm]: from [st] to [st'], [nb] batches and [nm]
    messages were received; every batch in flight still awaits a message;
    and if a batch was finished then ['response_processed'] was emitted
    once, followed at once by what [_poll] does, and no timer was touched. *)
Definition barrier (st st' : State) (nb nm : nat) : Prop :=
  wf st'
  /\ batches_seen st' = (batches_seen st + nb)%nat
  /\ messages_seen st' = (messages_seen st + nm)%nat
  /\ (count is_response_processed (log st')
      = count is_response_processed (log st)
      \/ count is_response_processed (log st')
         = S (count is_response_processed (log st))
         /\ timers st' = timers st
         /\ exists rest,
              log st' = poll_action (this st)
                        :: Emit SigResponseProcessed :: rest).

(** The events that resolve a message of batch [b]: the handler reports a
    failure, or the delete call completes. *)
Definition resolves_in (ev : Event) (b : nat) : Prop :=
  (exists i e, ev = EHandlerDone b i (Some e))
  \/ (exists i err, ev = EDeleteDone b i err).

(** [resolved_by a st st']: from [st] to [st'] the consumer has logged [a]
    and then, at most, the end of the batch: ['response_processed'] and
    what [_poll] does. *)
Definition resolved_by (a : Action) (st st' : State) : Prop :=
  log st' = a :: log st
  \/ log st' = poll_action (this st) :: Emit SigResponseProcessed :: a :: log st.

(** ** A consumer to run *)

(** Options with an empty queue name, and options whose numbers are all
    falsy. *)
Definition options_empty_name : Options.t :=
  {| Options.queueName := Some "";
     Options.handleMessage := Some (fun _ => Pending);
     Options.batchSize := None;
     Options.pollDelaySeconds := None;
     Options.maximumExecutionTimeSeconds := None;
     Options.authenticationErrorTimeoutSeconds := None |}.

Definition options_zero_delays : Options.t :=
  {| Options.queueName := Some "jobs";
     Options.handleMessage := Some (fun _ => Pending);
     Options.batchSize := Some NaN;
     Options.pollDelaySeconds := Some (Num 0);
     Options.maximumExecutionTimeSeconds := Some (Num 0);
     Options.authenticationErrorTimeoutSeconds := Some (Num 0) |}.

Definition msgA : Message :=
  {| messageId := "A"; popReceipt := "receipt-A"; messageText := "first" |}.

Definition msgB : Message :=
  {| messageId := "B"; popReceipt := "receipt-B"; messageText := "second" |}.

(** A handler that throws on message A and otherwise returns with [done]
    still to be called. *)
Definition example_handler : Handler :=
  fun msg =>
    if String.eqb (messageId msg) "A" then Throws (Error "boom") else Pending.

Definition example_options : Options.t :=
  {| Options.queueName := Some "jobs";
     Options.handleMessage := Some example_handler;
     Options.batchSize := Some (Num 2);
     Options.pollDelaySeconds := None;
     Options.maximumExecutionTimeSeconds := None;
     Options.authenticationErrorTimeoutSeconds := Some (Num 30) |}.

(** The consumer [construct] builds from [example_options]. *)
Definition example_consumer : Consumer :=
  {| queueName := Some "jobs";
     handleMessage := Some example_handler;
     stopped := true;
     isWaiting := false;
     batchSize := 2;
     visibilityTimeout := None;
     pollDelaySeconds := 1;
     maximumExecutionTimeSeconds := 10;
     authenticationErrorTimeoutSeconds := 30 |}.

(** An authentication error of the queue service, and an error of a handler
    that bears the name of the queue-service errors. *)
Definition forbidden : JsError :=
  {| name := "StorageError"; message := "Forbidden";
     statusCode := Some 403; code := None |}.

Definition impostor : JsError :=
  {| name := "QueueServiceError"; message := "not from the queue service";
     statusCode := None; code := None |}.

(** The example consumer has fetched message B, which is with the handler
    ([handling_B]); then the handler has succeeded and the delete call is
    outstanding ([deleting_B]). *)
Definition fetch_B : list Event :=
  [EStart; EFetchDone None (Some [msgB])].

Definition finish_B : list Event :=
  [EHandlerDone 0 0 None; EDeleteDone 0 0 None].

Definition handling_B : State :=
  match run (initial example_consumer) fetch_B with
  | Some st => st
  | None => initial example_consumer
  end.

Definition deleting_B : State :=
  match step handling_B (EHandlerDone 0 0 None) with
  | Some st => st
  | None => handling_B
  end.

(** A batch of two: the handler throws on message A and succeeds, later, on
    message B. *)
Definition batch_scenario : list Event :=
  [EStart; EFetchDone None (Some [msgA; msgB]); EHandlerDone 0 1 None].

(** ** Accounting by events *)

(** The options [options] with other values for the three delays. *)
Definition with_delays (p m a : option JsNumber) (options : Options.t)
    : Options.t :=
  {| Options.queueName := Options.queueName options;
     Options.handleMessage := Options.handleMessage options;
     Options.batchSize := Options.batchSize options;
     Options.pollDelaySeconds := p;
     Options.maximumExecutionTimeSeconds := m;
     Options.authenticationErrorTimeoutSeconds := a |}.

(** Everything of the consumer object but the [stopped] flag. *)
Definition same_config (c c' : Consumer) : Prop :=
  queueName c' = queueName c
  /\ handleMessage c' = handleMessage c
  /\ isWaiting c' = isWaiting c
  /\ batchSize c' = batchSize c
  /\ visibilityTimeout c' = visibilityTimeout c
  /\ pollDelaySeconds c' = pollDelaySeconds c
  /\ maximumExecutionTimeSeconds c' = maximumExecutionTimeSeconds c
  /\ authenticationErrorTimeoutSeconds c' = authenticationErrorTimeoutSeconds c.

(** The flag after the calls of [start] and [stop] among [evs]. *)
Fixpoint flag_after (flag : bool) (evs : list Event) : bool :=
  match evs with
  | [] => flag
  | EStart :: evs' => flag_after false evs'
  | EStop :: evs' => flag_after true evs'
  | _ :: evs' => flag_after flag evs'
  end.

(** The calls of [start] among [evs] that find the consumer stopped. *)
Fixpoint restarts (flag : bool) (evs : list Event) : nat :=
  match evs with
  | [] => 0
  | EStart :: evs' => ((if flag then 1 else 0) + restarts false evs')%nat
  | EStop :: evs' => restarts true evs'
  | _ :: evs' => restarts flag evs'
  end.

(** The parameters of every fetch, and the calls that use the
    configuration of [c]: its queue, its parameters, one of its two
    delays. *)
Definition receiveParams (c : Consumer) : ReceiveParams :=
  {| numOfMessages := batchSize c;
     maximumExecutionTimeInMs := maximumExecutionTimeSeconds c * 1000;
     receiveVisibilityTimeout := visibilityTimeout c |}.


Definition is_stopped_signal (a : Action) : bool :=
  match a with Emit SigStopped => true | _ => false end.

Definition is_message_processed (a : Action) : bool :=
  match a with Emit (SigMessageProcessed _) => true | _ => false end.

(** An ['error'] signal that carries no message. *)
Definition is_fetch_error (a : Action) : bool :=
  match a with Emit (SigError _ None) => true | _ => false end.

(** The handler of [c] succeeds on [msg] before it returns. *)
Definition succeeds_at_once (c : Consumer) (msg : Message) : bool :=
  match call_handleMessage c msg with
  | Done None => true
  | _ => false
  end.

(** What an event brings: messages, handler successes, delete successes,
    fetch errors, fetches without messages. *)
Definition fetched_of (ev : Event) : list Message :=
  match ev with EFetchDone _ (Some l) => l | _ => [] end.

Definition handler_successes_of (c : Consumer) (ev : Event) : nat :=
  match ev with
  | EHandlerDone _ _ None => 1
  | EFetchDone _ (Some l) => count (succeeds_at_once c) l
  | _ => 0
  end.

Definition delete_successes_of (ev : Event) : nat :=
  match ev with EDeleteDone _ _ None => 1 | _ => 0 end.

Definition fetch_errors_of (ev : Event) : nat :=
  match ev with EFetchDone (Some _) _ => 1 | _ => 0 end.

Definition empty_fetches_of (ev : Event) : nat :=
  match ev with
  | EFetchDone _ (Some (_ :: _)) => 0
  | EFetchDone _ _ => 1
  | _ => 0
  end.

Fixpoint tally (f : Event -> nat) (evs : list Event) : nat :=
  match evs with
  | [] => 0
  | ev :: evs' => (f ev + tally f evs')%nat
  end.

Fixpoint fetched (evs : list Event) : list Message :=
  match evs with
  | [] => []
  | ev :: evs' => fetched_of ev ++ fetched evs'
  end.

(** The delay of the timer a fetch callback without messages sets. *)
Definition repoll_delay (c : Consumer) (err : option JsError) : Z :=
  match err with
  | Some e =>
      if isAuthenticationError e
      then authenticationErrorTimeoutSeconds c * 1000
      else pollDelaySeconds c * 1000
  | None => pollDelaySeconds c * 1000
  end.

(** What the callback of [ev] logs in [st] before the end of a batch, if
    one ends: most recent first. *)
Definition step_actions (st : State) (ev : Event) : list Action :=
  match ev with
  | EStart =>
      if stopped (this st)
      then [GetMessages (queueName (this st)) (receiveParams (this st))]
      else []
  | EStop => []
  | EFetchDone err response =>
      match response with
      | Some (msg :: rest) => sync_log (this st) (msg :: rest) []
      | _ => [SetTimeout (repoll_delay (this st) err)]
      end
      ++ match err with
         | Some e =>
             [Emit (SigError
                      (QueueServiceError
                         ("Queue service receive message failed: " ++ message e))
                      None)]
         | None => []
         end
  | ETimerFired _ => [poll_action (this st)]
  | EHandlerDone b i err =>
      match item_of b i st, err with
      | Some (msg, _), Some e => [Emit (failure_signal e msg)]
      | Some (msg, _), None =>
          [DeleteMessage (queueName (this st)) (messageId msg) (popReceipt msg)]
      | None, _ => []
      end
  | EDeleteDone b i err =>
      match item_of b i st, err with
      | Some (msg, _), Some e =>
          [Emit (SigError
                   (QueueServiceError
                      ("Queue service delete message failed: " ++ message e))
                   (Some msg))]
      | Some (msg, _), None => [Emit (SigMessageProcessed msg)]
      | None, _ => []
      end
  end.

(** The end of a batch in the log, or nothing. *)
Definition batch_end (c : Consumer) (l : list Action) : Prop :=
  l = [] \/ l = [poll_action c; Emit SigResponseProcessed].

(** A predicate on actions that no end of a batch satisfies. *)
Definition not_batch_end (p : Action -> bool) : Prop :=
  p (Emit SigResponseProcessed) = false
  /\ p (Emit SigStopped) = false
  /\ forall q params, p (GetMessages q params) = false.

(** The poll chains a state has seen: those that are alive and those that
    have ended with ['stopped']. *)
Definition chains_seen (st : State) : nat :=
  (chains st + count is_stopped_signal (log st))%nat.

(** What [_poll] logs when it runs: a fetch or ['stopped']. *)
Definition is_poll (a : Action) : bool :=
  is_fetch a || is_stopped_signal a.

Definition timer_expiries_of (ev : Event) : nat :=
  match ev with ETimerFired _ => 1 | _ => 0 end.

(** Options with a negative poll delay. *)
Definition options_negative_delay : Options.t :=
  {| Options.queueName := Some "jobs";
     Options.handleMessage := Some example_handler;
     Options.batchSize := None;
     Options.pollDelaySeconds := Some (Num (-5));
     Options.maximumExecutionTimeSeconds := None;
     Options.authenticationErrorTimeoutSeconds := None |}.

(** The example consumer through two starts, a stop, an empty fetch and a
    batch of two. *)
Definition long_scenario : list Event :=
  [EStart; EFetchDone (Some forbidden) None; ETimerFired 0;
   EFetchDone None (Some [msgA; msgB]); EHandlerDone 0 1 None; EStop;
   EDeleteDone 0 1 None; EStart; EStart].

(** The state that scenario ends in. *)
Definition long_end : State :=
  Eval vm_compute in
    match run (initial example_consumer) long_scenario with
    | Some st => st
    | None => initial example_consumer
    end.

(** * Verification *)

(** ** Construction and validation *)

Section Construction.

Implicit Types (options : Options.t) (c : Consumer) (v : option JsNumber).

Lemma js_or_falsy v d : truthy_number v = false -> js_or v d = d.
Proof.
  destruct v as [[|z]|]; simpl; try reflexivity.
  destruct (z =? 0); [reflexivity | discriminate].
Qed.

Lemma js_or_nonzero v d : d <> 0 -> js_or v d <> 0.
Proof.
  intros Hd. destruct v as [[|z]|]; simpl; try assumption.
  destruct (Z.eqb_spec z 0); assumption.
Qed.

Lemma range_check_spec v :
  js_gt v 10 || js_lt v 1 = true <-> out_of_range v.
Proof.
  unfold out_of_range. split.
  - destruct v as [[|z]|]; simpl; try discriminate.
    intros H. exists z. split; [reflexivity|].
    apply orb_true_iff in H as [H|H]; apply Z.ltb_lt in H; lia.
  - intros (z & -> & Hz). simpl. apply orb_true_iff.
    destruct Hz; [right | left]; apply Z.ltb_lt; lia.
Qed.

Lemma validate_throws_iff options :
  (exists e, validate options = Throw e) <->
  truthy_string (Options.queueName options) = false
  \/ Options.handleMessage options = None
  \/ out_of_range (Options.batchSize options).
Proof.
  unfold validate, requiredOptions. simpl.
  unfold missing_option at 1. simpl.
  destruct (truthy_string (Options.queueName options)) eqn:Hq; simpl.
  2:{ split; eauto. }
  unfold missing_option. simpl.
  destruct (Options.handleMessage options) as [h|] eqn:Hh; simpl.
  2:{ split; eauto. }
  destruct (js_gt (Options.batchSize options) 10
            || js_lt (Options.batchSize options) 1) eqn:Hb.
  - apply range_check_spec in Hb. split; eauto.
  - split.
    + intros [e He]. discriminate.
    + intros [H|[H|H]]; try discriminate.
      apply range_check_spec in H. congruence.
Qed.

Lemma construct_validate options :
  rejected options <-> exists e, validate options = Throw e.
Proof.
  unfold rejected, construct.
  destruct (validate options) as [[]|e]; split; intros [e' H];
    try discriminate; eauto.
Qed.

End Construction.

(** C7, as stated, fails: a queue name that is present but empty is
    rejected, although both required options are present and no batch size
    is given. *)
Lemma construct_rejects_empty_name :
  rejected options_empty_name
  /\ Options.queueName options_empty_name <> None
  /\ Options.handleMessage options_empty_name <> None
  /\ ~ out_of_range (Options.batchSize options_empty_name).
Proof.
  split; [|split; [|split]].
  - eexists. reflexivity.
  - discriminate.
  - discriminate.
  - intros (z & H & _). discriminate.
Qed.

(** C7 (amended): construction throws, and builds no consumer, exactly when
    [queueName] is falsy (absent or the empty string), [handleMessage] is
    absent, or [batchSize] is a number below 1 or above 10; otherwise it
    yields a stopped consumer that holds the two required options as given
    and the defaults 1, 1, 10 and 10 for every numeric option that is
    absent. *)
Theorem construct_rejects_iff (options : Options.t) :
  (rejected options <->
     truthy_string (Options.queueName options) = false
     \/ Options.handleMessage options = None
     \/ out_of_range (Options.batchSize options))
  /\ (rejected options \/
      exists c, construct options = Normal c
        /\ queueName c = Options.queueName options
        /\ handleMessage c = Options.handleMessage options
        /\ stopped c = true
        /\ (Options.batchSize options = None -> batchSize c = 1)
        /\ (Options.pollDelaySeconds options = None -> pollDelaySeconds c = 1)
        /\ (Options.maximumExecutionTimeSeconds options = None ->
            maximumExecutionTimeSeconds c = 10)
        /\ (Options.authenticationErrorTimeoutSeconds options = None ->
            authenticationErrorTimeoutSeconds c = 10)).
Proof.
  split.
  - rewrite construct_validate. apply validate_throws_iff.
  - unfold rejected, construct.
    destruct (validate options) as [[]|e]; [right | left; eauto].
    eexists. split; [reflexivity|]. simpl.
    repeat split; intros ->; reflexivity.
Qed.

(** C10: whenever construction succeeds, a falsy [pollDelaySeconds],
    [maximumExecutionTimeSeconds] or [authenticationErrorTimeoutSeconds]
    (absent, [NaN] or 0) has been replaced by 1, 10 and 10, a falsy
    [batchSize] by 1, and none of the four fields of the consumer is 0. *)
Theorem falsy_options_take_defaults (options : Options.t) (c : Consumer) :
  construct options = Normal c ->
  (truthy_number (Options.pollDelaySeconds options) = false ->
   pollDelaySeconds c = 1)
  /\ (truthy_number (Options.maximumExecutionTimeSeconds options) = false ->
      maximumExecutionTimeSeconds c = 10)
  /\ (truthy_number (Options.authenticationErrorTimeoutSeconds options) = false ->
      authenticationErrorTimeoutSeconds c = 10)
  /\ (truthy_number (Options.batchSize options) = false -> batchSize c = 1)
  /\ pollDelaySeconds c <> 0
  /\ maximumExecutionTimeSeconds c <> 0
  /\ authenticationErrorTimeoutSeconds c <> 0
  /\ batchSize c <> 0.
Proof.
  unfold construct. destruct (validate options) as [[]|e]; [|discriminate].
  intros [= <-]. simpl.
  repeat split; try (intros H; apply js_or_falsy; exact H);
    apply js_or_nonzero; discriminate.
Qed.

(** Zero delays and a [NaN] batch size pass validation and are replaced. *)
Lemma falsy_options_take_defaults_witness :
  exists c, construct options_zero_delays = Normal c
    /\ pollDelaySeconds c = 1
    /\ maximumExecutionTimeSeconds c = 10
    /\ authenticationErrorTimeoutSeconds c = 10
    /\ batchSize c = 1.
Proof.
  eexists. split; [reflexivity|].
  destruct (falsy_options_take_defaults options_zero_delays _ eq_refl)
    as (Hp & Hm & Ha & Hb & _).
  split; [apply Hp; reflexivity|].
  split; [apply Hm; reflexivity|].
  split; [apply Ha; reflexivity|].
  apply Hb; reflexivity.
Defined.

Lemma example_constructed : construct example_options = Normal example_consumer.
Proof. reflexivity. Qed.

(** ** Counting what was logged *)

Lemma count_app {A} (p : A -> bool) (l1 l2 : list A) :
  count p (l1 ++ l2) = (count p l1 + count p l2)%nat.
Proof. induction l1 as [|x l1 IH]; simpl; [reflexivity | rewrite IH; lia]. Qed.

Lemma count_le_length {A} (p : A -> bool) (l : list A) :
  (count p l <= length l)%nat.
Proof. induction l as [|x l IH]; simpl; [lia | destruct (p x); lia]. Qed.

Lemma count_length_forallb {A} (p : A -> bool) (l : list A) :
  count p l = length l <-> forallb p l = true.
Proof.
  induction l as [|x l IH]; simpl; [tauto|].
  pose proof (count_le_length p l) as Hle.
  destruct (p x); simpl; [rewrite <- IH; lia | split; [lia | discriminate]].
Qed.

(** ** What the callbacks of a batch leave alone *)

Lemma loop_frame_refl st : loop_frame st st.
Proof. unfold loop_frame. repeat split; lia. Qed.

Lemma loop_frame_trans st1 st2 st3 :
  loop_frame st1 st2 -> loop_frame st2 st3 -> loop_frame st1 st3.
Proof.
  unfold loop_frame.
  intros (Ht & Hm & Hc & Hl & Hs) (Ht' & Hm' & Hc' & Hl' & Hs').
  rewrite Ht in Hs'.
  split; [congruence|]. split; [congruence|]. split; [lia|].
  split; [congruence|].
  intros Hst. destruct (Hs Hst), (Hs' Hst). split; congruence.
Qed.

Lemma loop_frame_emit sig st : loop_frame st (emit sig st).
Proof. unfold loop_frame. simpl. repeat split; lia. Qed.

Lemma loop_frame_set_stage b i msg stage st :
  loop_frame st (set_stage b i msg stage st).
Proof.
  unfold set_stage. destruct (batches st !! b); [|apply loop_frame_refl].
  unfold loop_frame. simpl. rewrite length_insert. repeat split; lia.
Qed.

Lemma loop_frame_each_callback b i msg st :
  loop_frame st (each_callback b i msg st).
Proof.
  unfold each_callback.
  destruct (batches st !! b) as [bt|] eqn:Hb; [|apply loop_frame_refl].
  apply lookup_lt_Some in Hb.
  match goal with |- context [if ?c then _ else _] => destruct c end.
  - unfold _poll, loop_frame. simpl.
    destruct (stopped (this st)) eqn:Hs; simpl;
      rewrite length_delete by (apply lookup_lt_is_Some_2; exact Hb);
      repeat split; try lia; discriminate.
  - unfold loop_frame. simpl. rewrite length_insert. repeat split; lia.
Qed.

Lemma loop_frame_series_callback b i msg err st :
  loop_frame st (series_callback b i msg err st).
Proof.
  unfold series_callback.
  eapply loop_frame_trans; [|apply loop_frame_each_callback].
  destruct err as [e|]; [destruct (String.eqb _ _)|]; apply loop_frame_emit.
Qed.

Lemma loop_frame_deleteMessage b i msg st :
  loop_frame st (_deleteMessage b i msg st).
Proof.
  unfold _deleteMessage.
  eapply loop_frame_trans; [|apply loop_frame_set_stage].
  unfold loop_frame. simpl. repeat split; lia.
Qed.

Lemma loop_frame_handleMessage_callback b i msg err st :
  loop_frame st (handleMessage_callback b i msg err st).
Proof.
  destruct err; simpl;
    [apply loop_frame_series_callback | apply loop_frame_deleteMessage].
Qed.

Lemma loop_frame_deleteMessage_callback b i msg err st :
  loop_frame st (_deleteMessage_callback b i msg err st).
Proof. destruct err; simpl; apply loop_frame_series_callback. Qed.

Lemma loop_frame_processMessage b i msg st :
  loop_frame st (_processMessage b i msg st).
Proof.
  unfold _processMessage.
  eapply loop_frame_trans; [apply (loop_frame_emit (SigMessageReceived msg))|].
  destruct (call_handleMessage _ msg);
    try apply loop_frame_handleMessage_callback; apply loop_frame_refl.
Qed.

Lemma loop_frame_each_from response : forall b i st,
  loop_frame st (each_from b i response st).
Proof.
  induction response as [|msg rest IH]; intros b i st; simpl.
  - apply loop_frame_refl.
  - eapply loop_frame_trans; [apply loop_frame_processMessage | apply IH].
Qed.

(** ** Dispatch in closed form *)

Section Dispatch.

Variable st : State.

Let c := this st.
Let b := length (batches st).

Lemma sync_log_snoc done msg l :
  sync_log c (done ++ [msg]) l = sync_actions c msg ++ sync_log c done l.
Proof.
  revert l. induction done as [|m done IH]; intros l; simpl; [reflexivity|].
  apply IH.
Qed.

Lemma completed_check (D R : list (Message * Stage)) (x : Message * Stage) :
  (S (count resolved D) =? length (D ++ x :: R))%nat
  = match R with [] => forallb resolved D | _ => false end.
Proof.
  rewrite length_app.
  pose proof (count_le_length resolved D) as Hle.
  destruct R as [|y R]; cbn [length].
  - destruct (forallb resolved D) eqn:Hall.
    + apply count_length_forallb in Hall. apply Nat.eqb_eq. lia.
    + apply Nat.eqb_neq. intros Heq.
      assert (count resolved D = length D) as Hc by lia.
      apply count_length_forallb in Hc. congruence.
  - apply Nat.eqb_neq. lia.
Qed.

Lemma insert_at_length {A} (D R : list A) (x y : A) :
  <[length D := y]> (D ++ x :: R) = D ++ y :: R.
Proof.
  rewrite insert_app_r_alt by lia. rewrite Nat.sub_diag. reflexivity.
Qed.

Lemma delete_last {A} (l : list A) (x : A) : delete (length l) (l ++ [x]) = l.
Proof. rewrite delete_middle. apply app_nil_r. Qed.

Lemma count_resolved_snoc D x :
  count resolved (D ++ [x]) = (count resolved D + if resolved x then 1 else 0)%nat.
Proof. rewrite count_app. simpl. lia. Qed.

Lemma walking_snoc done msg rest :
  walking st (done ++ [msg]) rest
  = {| this := this st;
       pendingFetches := pendingFetches st;
       timers := timers st;
       batches :=
         batches st ++
           [{| items := map (sync_item c) done
                        ++ sync_item c msg
                           :: map (fun msg => (msg, Handling)) rest;
               completed :=
                 (count resolved (map (sync_item c) done)
                  + if resolved (sync_item c msg) then 1 else 0)%nat |}];
       log := sync_actions c msg ++ sync_log c done (log st) |}.
Proof.
  unfold walking. fold c.
  rewrite sync_log_snoc, map_app. cbn [map].
  rewrite count_resolved_snoc, <- app_assoc. reflexivity.
Qed.

Lemma forallb_resolved_snoc done msg :
  forallb resolved (map (sync_item c) (done ++ [msg]))
  = forallb resolved (map (sync_item c) done) && resolved (sync_item c msg).
Proof. rewrite map_app, forallb_app. simpl. rewrite andb_true_r. reflexivity. Qed.

(** The iterator callback of a message that is resolved before its
    handler returns. *)
Lemma each_callback_walking done msg rest :
  sync_stage c msg = Resolved ->
  each_callback b (length done) msg
    (set_log (sync_actions c msg ++ sync_log c done (log st))
       (walking st done (msg :: rest)))
  = match rest with
    | [] =>
        if forallb resolved (map (sync_item c) (done ++ [msg]))
        then dispatched (done ++ [msg]) st
        else walking st (done ++ [msg]) rest
    | _ => walking st (done ++ [msg]) rest
    end.
Proof.
  intros Hstage.
  assert (Hitem : sync_item c msg = (msg, Resolved))
    by (unfold sync_item; rewrite Hstage; reflexivity).
  unfold each_callback. cbn [batches set_log walking]. fold c.
  unfold b. rewrite list_lookup_middle by reflexivity.
  cbn [items completed].
  cbn [map].
  rewrite <- (length_map (sync_item c) done).
  rewrite !insert_at_length, completed_check.
  rewrite forallb_resolved_snoc, walking_snoc, Hitem.
  cbn [resolved snd]. rewrite andb_true_r, Nat.add_1_r.
  destruct rest as [|m rest]; [|reflexivity].
  destruct (forallb resolved (map (sync_item c) done)) eqn:Hall;
    [|reflexivity].
  unfold dispatched. fold c.
  rewrite forallb_resolved_snoc, Hall, Hitem. cbn [resolved snd andb].
  rewrite sync_log_snoc, delete_last. reflexivity.
Qed.

Lemma series_callback_failure b' i msg e st' :
  series_callback b' i msg (Some e) st'
  = each_callback b' i msg (emit (failure_signal e msg) st').
Proof.
  unfold series_callback, failure_signal.
  destruct (String.eqb _ _); reflexivity.
Qed.

(** Handing [msg] to the handler, from the middle of the walk. *)
Lemma processMessage_walking done msg rest :
  _processMessage b (length done) msg (walking st done (msg :: rest))
  = match rest with
    | [] =>
        if forallb resolved (map (sync_item c) (done ++ [msg]))
        then dispatched (done ++ [msg]) st
        else walking st (done ++ [msg]) rest
    | _ => walking st (done ++ [msg]) rest
    end.
Proof.
  unfold _processMessage. cbn [this emit record].
  change (this (walking st done (msg :: rest))) with c.
  pose proof (each_callback_walking done msg rest) as Hcb.
  assert (Hitem : sync_item c msg = (msg, sync_stage c msg)) by reflexivity.
  unfold sync_stage in Hcb, Hitem. unfold sync_actions in Hcb.
  destruct (call_handleMessage c msg) as [e|[e|]|] eqn:Hcall.
  - unfold handleMessage_callback. rewrite series_callback_failure.
    apply Hcb. reflexivity.
  - unfold handleMessage_callback. rewrite series_callback_failure.
    apply Hcb. reflexivity.
  - clear Hcb.
    unfold handleMessage_callback, _deleteMessage, set_stage.
    cbn [this batches record emit walking]. fold c. unfold b.
    rewrite list_lookup_middle by reflexivity.
    cbn [items completed map].
    rewrite <- (length_map (sync_item c) done).
    rewrite !insert_at_length.
    rewrite forallb_resolved_snoc, walking_snoc, Hitem.
    unfold sync_actions. rewrite Hcall.
    cbn [resolved snd]. rewrite andb_false_r, Nat.add_0_r.
    destruct rest; reflexivity.
  - clear Hcb.
    rewrite forallb_resolved_snoc, walking_snoc, Hitem.
    unfold sync_actions. rewrite Hcall.
    cbn [resolved snd]. rewrite andb_false_r, Nat.add_0_r.
    destruct rest; reflexivity.
Qed.

Lemma each_from_cons b' i msg rest st' :
  each_from b' i (msg :: rest) st'
  = each_from b' (S i) rest (_processMessage b' i msg st').
Proof. reflexivity. Qed.

Lemma each_from_walking rest : forall done msg,
  each_from b (length done) (msg :: rest) (walking st done (msg :: rest))
  = dispatched (done ++ msg :: rest) st.
Proof.
  induction rest as [|m rest IH]; intros done msg.
  - cbn [each_from]. rewrite processMessage_walking.
    unfold dispatched. fold c.
    destruct (forallb resolved (map (sync_item c) (done ++ [msg])));
      [reflexivity|].
    unfold walking. fold c. cbn [map]. rewrite app_nil_r. reflexivity.
  - rewrite each_from_cons, processMessage_walking.
    replace (S (length done)) with (length (done ++ [msg]))
      by (rewrite length_app; simpl; lia).
    rewrite IH, <- app_assoc. reflexivity.
Qed.

(** [async.each] over a response that is not empty ends in the state
    [dispatched] describes. *)
Lemma each_dispatched msg rest :
  each (msg :: rest) st = dispatched (msg :: rest) st.
Proof. exact (each_from_walking rest [] msg). Qed.

End Dispatch.

(** ** Batches in flight *)

Lemma count_insert {A} (p : A -> bool) (l : list A) : forall i x y,
  l !! i = Some x ->
  (count p (<[i:=y]> l) + (if p x then 1 else 0)
   = count p l + (if p y then 1 else 0))%nat.
Proof.
  induction l as [|a l IH]; intros [|i] x y Hl; simpl in *; try discriminate.
  - injection Hl as ->. lia.
  - specialize (IH i x y Hl). lia.
Qed.

Lemma in_flight_app bs1 bs2 :
  in_flight (bs1 ++ bs2) = (in_flight bs1 + in_flight bs2)%nat.
Proof. induction bs1 as [|bt bs1 IH]; simpl; [reflexivity | rewrite IH; lia]. Qed.

Lemma in_flight_delete bs : forall b bt,
  bs !! b = Some bt ->
  (in_flight (delete b bs) + unresolved bt = in_flight bs)%nat.
Proof.
  induction bs as [|a bs IH]; intros [|b] bt Hb; simpl in *; try discriminate.
  - injection Hb as ->. lia.
  - specialize (IH b bt Hb). lia.
Qed.

Lemma in_flight_insert bs : forall b bt bt',
  bs !! b = Some bt ->
  (in_flight (<[b:=bt']> bs) + unresolved bt
   = in_flight bs + unresolved bt')%nat.
Proof.
  induction bs as [|a bs IH]; intros [|b] bt bt' Hb; simpl in *;
    try discriminate.
  - injection Hb as ->. lia.
  - specialize (IH b bt bt' Hb). lia.
Qed.

Lemma log_poll st : log (_poll st) = poll_action (this st) :: log st.
Proof.
  unfold _poll, poll_action. destruct (stopped (this st)); reflexivity.
Qed.

Lemma batches_poll st : batches (_poll st) = batches st.
Proof. unfold _poll. destruct (stopped (this st)); reflexivity. Qed.

Lemma timers_poll st : timers (_poll st) = timers st.
Proof. unfold _poll. destruct (stopped (this st)); reflexivity. Qed.

Lemma this_poll st : this (_poll st) = this st.
Proof. unfold _poll. destruct (stopped (this st)); reflexivity. Qed.

Lemma poll_action_not_counted c :
  is_response_processed (poll_action c) = false
  /\ is_outcome (poll_action c) = false
  /\ is_delete (poll_action c) = false
  /\ is_timeout (poll_action c) = false.
Proof. unfold poll_action. destruct (stopped c); repeat split. Qed.

Lemma outcome_not_response_processed a :
  is_outcome a = true -> is_response_processed a = false.
Proof. destruct a as [[]| | |]; simpl; congruence. Qed.

(** Nothing but the log, the fetch count and the flag differs. *)
Lemma barrier_pre st0 st st' nb nm :
  this st = this st0 -> timers st = timers st0 -> batches st = batches st0 ->
  count is_response_processed (log st) = count is_response_processed (log st0) ->
  count is_outcome (log st) = count is_outcome (log st0) ->
  barrier st st' nb nm -> barrier st0 st' nb nm.
Proof.
  unfold barrier, batches_seen, messages_seen.
  intros Ht Hm Hb Hr Ho (Hwf & Hbs & Hms & Hrp).
  rewrite Ht, Hm, Hb, Hr, Ho in *. auto.
Qed.

Lemma barrier_quiet st st' :
  wf st -> batches st' = batches st ->
  count is_response_processed (log st') = count is_response_processed (log st) ->
  count is_outcome (log st') = count is_outcome (log st) ->
  barrier st st' 0 0.
Proof.
  unfold barrier, batches_seen, messages_seen, wf.
  intros Hwf -> -> ->. repeat split; auto.
Qed.

(** The iterator callback of an item that was not resolved, after the
    signal [sig] about its outcome. *)
Lemma barrier_each_callback b i msg stage bt sig st :
  wf st ->
  batches st !! b = Some bt ->
  items bt !! i = Some (msg, stage) ->
  stage <> Resolved ->
  is_outcome (Emit sig) = true ->
  barrier st (each_callback b i msg (emit sig st)) 0 0.
Proof.
  intros Hwf Hb Hi Hstage Hsig.
  pose proof (outcome_not_response_processed _ Hsig) as Hnrp.
  pose proof (Forall_lookup_1 _ _ _ _ Hwf Hb) as [Hc Hlt].
  pose proof (count_insert resolved (items bt) i _ (msg, Resolved) Hi) as Hcount.
  assert (resolved (msg, stage) = false) as Hnot
    by (destruct stage; [reflexivity | reflexivity | congruence]).
  rewrite Hnot in Hcount. cbn [resolved snd] in Hcount.
  pose proof (count_le_length resolved (<[i:=(msg, Resolved)]> (items bt))) as Hle.
  rewrite length_insert in Hle.
  pose proof (lookup_lt_Some _ _ _ Hb) as Hlen.
  unfold each_callback. cbn [batches emit record]. rewrite Hb.
  cbn [items completed]. rewrite length_insert.
  destruct (Nat.eqb_spec (S (completed bt)) (length (items bt))) as [Heq|Hne].
  - unfold barrier, batches_seen, messages_seen, wf.
    rewrite log_poll, batches_poll, timers_poll.
    cbn [log batches timers this emit record set_batches count].
    destruct (poll_action_not_counted (this st)) as (-> & -> & _).
    rewrite Hsig, Hnrp. cbn [is_response_processed is_outcome].
    pose proof (in_flight_delete _ _ _ Hb) as Hfl.
    unfold unresolved in Hfl.
    rewrite length_delete by eauto.
    split; [apply Forall_delete; exact Hwf|].
    split; [lia|]. split; [lia|].
    right. split; [lia|]. split; [reflexivity|]. eauto.
  - unfold barrier, batches_seen, messages_seen, wf.
    cbn [log batches timers this emit record set_batches count].
    rewrite Hsig, Hnrp, length_insert.
    pose proof (in_flight_insert _ _ _
      {| items := <[i:=(msg, Resolved)]> (items bt);
         completed := S (completed bt) |} Hb) as Hfl.
    unfold unresolved in Hfl. cbn [items] in Hfl.
    rewrite length_insert in Hfl.
    split.
    { apply Forall_insert; [exact Hwf|].
      unfold batch_ok. cbn [items completed]. rewrite length_insert. lia. }
    split; [lia|]. split; [lia|]. left. lia.
Qed.

Lemma barrier_series_callback b i msg stage bt err st :
  wf st ->
  batches st !! b = Some bt ->
  items bt !! i = Some (msg, stage) ->
  stage <> Resolved ->
  barrier st (series_callback b i msg err st) 0 0.
Proof.
  intros Hwf Hb Hi Hstage. unfold series_callback.
  destruct err as [e|]; [destruct (String.eqb _ _)|];
    eapply barrier_each_callback; eauto.
Qed.

Lemma barrier_deleteMessage b i msg bt st :
  wf st ->
  batches st !! b = Some bt ->
  items bt !! i = Some (msg, Handling) ->
  barrier st (_deleteMessage b i msg st) 0 0.
Proof.
  intros Hwf Hb Hi.
  pose proof (Forall_lookup_1 _ _ _ _ Hwf Hb) as [Hc Hlt].
  pose proof (count_insert resolved (items bt) i _ (msg, Deleting) Hi) as Hcount.
  cbn [resolved snd] in Hcount.
  unfold _deleteMessage, set_stage. cbn [batches record]. rewrite Hb.
  pose proof (in_flight_insert _ _ _
    {| items := <[i:=(msg, Deleting)]> (items bt);
       completed := completed bt |} Hb) as Hfl.
  unfold unresolved in Hfl. cbn [items] in Hfl. rewrite length_insert in Hfl.
  unfold barrier, batches_seen, messages_seen, wf.
  cbn [log batches timers this record set_batches count
       is_response_processed is_outcome].
  rewrite length_insert.
  split.
  { apply Forall_insert; [exact Hwf|].
    unfold batch_ok. cbn [items completed]. rewrite length_insert. lia. }
  split; [lia|]. split; [lia|]. left. lia.
Qed.

Lemma failure_signal_outcome e msg : is_outcome (Emit (failure_signal e msg)) = true.
Proof. unfold failure_signal. destruct (String.eqb _ _); reflexivity. Qed.

Lemma failure_signal_not_response_processed e msg :
  is_response_processed (Emit (failure_signal e msg)) = false.
Proof. unfold failure_signal. destruct (String.eqb _ _); reflexivity. Qed.

Lemma sync_actions_outcome c msg :
  count is_outcome (sync_actions c msg)
  = if resolved (sync_item c msg) then 1%nat else 0%nat.
Proof.
  unfold sync_actions, sync_item, sync_stage.
  destruct (call_handleMessage c msg) as [e|[e|]|]; cbn [count resolved snd];
    rewrite ?failure_signal_outcome; reflexivity.
Qed.

Lemma sync_actions_quiet c msg :
  count is_response_processed (sync_actions c msg) = 0%nat
  /\ count is_timeout (sync_actions c msg) = 0%nat
  /\ count is_fetch (sync_actions c msg) = 0%nat.
Proof.
  unfold sync_actions, failure_signal.
  destruct (call_handleMessage c msg) as [e|[e|]|]; simpl;
    repeat match goal with |- context [String.eqb ?a ?b] =>
      destruct (String.eqb a b) end; auto.
Qed.

Lemma sync_log_outcome c response : forall l,
  count is_outcome (sync_log c response l)
  = (count resolved (map (sync_item c) response) + count is_outcome l)%nat.
Proof.
  induction response as [|msg rest IH]; intros l; simpl; [reflexivity|].
  rewrite IH, count_app, sync_actions_outcome. lia.
Qed.

Lemma sync_log_quiet c response : forall l,
  count is_response_processed (sync_log c response l)
  = count is_response_processed l
  /\ count is_timeout (sync_log c response l) = count is_timeout l
  /\ count is_fetch (sync_log c response l) = count is_fetch l.
Proof.
  induction response as [|msg rest IH]; intros l; simpl; [auto|].
  destruct (IH (sync_actions c msg ++ l)) as (-> & -> & ->).
  rewrite !count_app.
  destruct (sync_actions_quiet c msg) as (-> & -> & ->). auto.
Qed.

Lemma barrier_dispatched response st :
  wf st -> barrier st (dispatched response st) 1 (length response).
Proof.
  intros Hwf. unfold dispatched.
  pose proof (sync_log_outcome (this st) response (log st)) as Ho.
  destruct (sync_log_quiet (this st) response (log st)) as (Hr & _ & _).
  pose proof (count_le_length resolved (map (sync_item (this st)) response)) as Hle.
  rewrite length_map in Hle.
  destruct (forallb resolved (map (sync_item (this st)) response)) eqn:Hall.
  - apply count_length_forallb in Hall. rewrite length_map in Hall.
    unfold barrier, batches_seen, messages_seen, wf.
    rewrite log_poll, batches_poll, timers_poll.
    cbn [log batches timers this emit record set_log count].
    destruct (poll_action_not_counted (this st)) as (-> & -> & _).
    cbn [is_response_processed is_outcome].
    rewrite Ho, Hr, Hall.
    split; [exact Hwf|]. split; [lia|]. split; [lia|].
    right. split; [lia|]. split; [reflexivity|]. eauto.
  - assert (count resolved (map (sync_item (this st)) response)
            <> length response) as Hne.
    { intros Heq. rewrite <- (length_map (sync_item (this st))) in Heq.
      apply count_length_forallb in Heq. congruence. }
    unfold barrier, batches_seen, messages_seen, wf.
    cbn [log batches timers this set_batches set_log].
    rewrite Ho, Hr, length_app, in_flight_app.
    cbn [length in_flight]. unfold unresolved. cbn [items].
    rewrite length_map.
    split.
    { apply Forall_app. split; [exact Hwf|].
      apply Forall_singleton.
      unfold batch_ok. cbn [items completed]. rewrite length_map. lia. }
    split; [lia|]. split; [lia|]. left. reflexivity.
Qed.

Lemma barrier_handleQueueServiceResponse err response st :
  wf st ->
  barrier st (_handleQueueServiceResponse err response st)
    (match response with Some (_ :: _) => 1 | _ => 0 end)
    (match response with Some l => length l | None => 0 end).
Proof.
  intros Hwf. unfold _handleQueueServiceResponse.
  set (st1 := match err with Some e => emit _ st | None => st end).
  assert (barrier st1
            (match response with
             | Some (msg :: rest) => each (msg :: rest) st1
             | _ =>
                 match err with
                 | Some e =>
                     if isAuthenticationError e
                     then setTimeout
                            (authenticationErrorTimeoutSeconds (this st1) * 1000) st1
                     else setTimeout (pollDelaySeconds (this st1) * 1000) st1
                 | None => setTimeout (pollDelaySeconds (this st1) * 1000) st1
                 end
             end)
            (match response with Some (_ :: _) => 1 | _ => 0 end)
            (match response with Some l => length l | None => 0 end)) as H1.
  { assert (wf st1) as Hwf1 by (subst st1; destruct err; exact Hwf).
    assert (forall ms, barrier st1 (setTimeout ms st1) 0 0) as Hto
      by (intros ms; apply barrier_quiet; [exact Hwf1 | reflexivity..]).
    destruct response as [[|msg rest]|].
    - destruct err as [e|]; [destruct (isAuthenticationError e)|]; apply Hto.
    - rewrite each_dispatched. apply barrier_dispatched. exact Hwf1.
    - destruct err as [e|]; [destruct (isAuthenticationError e)|]; apply Hto. }
  eapply barrier_pre; [..|exact H1]; subst st1; destruct err; reflexivity.
Qed.

Lemma barrier_step st ev st' :
  wf st -> step st ev = Some st' ->
  barrier st st'
    (match ev with EFetchDone _ (Some (_ :: _)) => 1 | _ => 0 end)
    (match ev with EFetchDone _ (Some l) => length l | _ => 0 end).
Proof.
  intros Hwf Hstep. destruct ev as [| |err response|i|b i err|b i err];
    simpl in Hstep.
  - injection Hstep as <-. unfold start.
    destruct (stopped (this st)) eqn:Hs.
    + apply barrier_quiet; [exact Hwf | reflexivity..].
    + apply barrier_quiet; [exact Hwf | reflexivity..].
  - injection Hstep as <-. apply barrier_quiet; [exact Hwf | reflexivity..].
  - destruct (pendingFetches st) as [|n] eqn:Hp; [discriminate|].
    injection Hstep as <-.
    eapply barrier_pre;
      [..|apply (barrier_handleQueueServiceResponse err response
                   (set_pendingFetches n st)); exact Hwf]; reflexivity.
  - destruct (timers st !! i) eqn:Hi; [|discriminate].
    injection Hstep as <-.
    apply barrier_quiet;
      [exact Hwf | rewrite batches_poll; reflexivity | rewrite log_poll..].
    + cbn [count log set_timers this].
      destruct (poll_action_not_counted (this st)) as (-> & _). reflexivity.
    + cbn [count log set_timers this].
      destruct (poll_action_not_counted (this st)) as (_ & -> & _). reflexivity.
  - unfold item_of in Hstep.
    destruct (batches st !! b) as [bt|] eqn:Hb; [|discriminate].
    destruct (items bt !! i) as [[msg [| |]]|] eqn:Hi; try discriminate.
    injection Hstep as <-.
    destruct err as [e|]; simpl.
    + eapply barrier_series_callback; eauto; discriminate.
    + eapply barrier_deleteMessage; eauto.
  - unfold item_of in Hstep.
    destruct (batches st !! b) as [bt|] eqn:Hb; [|discriminate].
    destruct (items bt !! i) as [[msg [| |]]|] eqn:Hi; try discriminate.
    injection Hstep as <-.
    destruct err as [e|]; simpl;
      eapply barrier_series_callback; eauto; discriminate.
Qed.

(** The iterator callback of an item emits ['response_processed'] exactly
    when the item is the only one of its batch that was not resolved. *)
Lemma last_each_callback b i msg stage bt sig st :
  wf st ->
  batches st !! b = Some bt ->
  items bt !! i = Some (msg, stage) ->
  stage <> Resolved ->
  is_outcome (Emit sig) = true ->
  count is_response_processed (log (each_callback b i msg (emit sig st)))
  = S (count is_response_processed (log st))
  <-> unresolved bt = 1%nat.
Proof.
  intros Hwf Hb Hi Hstage Hsig.
  pose proof (outcome_not_response_processed _ Hsig) as Hnrp.
  pose proof (Forall_lookup_1 _ _ _ _ Hwf Hb) as [Hc Hlt].
  unfold each_callback, unresolved. cbn [batches emit record]. rewrite Hb.
  cbn [items completed]. rewrite length_insert.
  destruct (Nat.eqb_spec (S (completed bt)) (length (items bt))) as [Heq|Hne].
  - rewrite log_poll.
    cbn [log this emit record set_batches count].
    destruct (poll_action_not_counted (this st)) as (-> & _).
    rewrite Hnrp. cbn [is_response_processed]. lia.
  - cbn [log emit record set_batches count]. rewrite Hnrp. lia.
Qed.

Lemma last_series_callback b i msg stage bt err st :
  wf st ->
  batches st !! b = Some bt ->
  items bt !! i = Some (msg, stage) ->
  stage <> Resolved ->
  count is_response_processed (log (series_callback b i msg err st))
  = S (count is_response_processed (log st))
  <-> unresolved bt = 1%nat.
Proof.
  intros Hwf Hb Hi Hstage. unfold series_callback.
  destruct err as [e|]; [destruct (String.eqb _ _)|];
    eapply last_each_callback; eauto.
Qed.

Lemma last_step st ev b bt st' :
  wf st -> resolves_in ev b -> batches st !! b = Some bt ->
  step st ev = Some st' ->
  count is_response_processed (log st')
  = S (count is_response_processed (log st))
  <-> unresolved bt = 1%nat.
Proof.
  intros Hwf [(i & e & ->)|(i & err & ->)] Hb Hstep;
    simpl in Hstep; unfold item_of in Hstep; rewrite Hb in Hstep;
    destruct (items bt !! i) as [[msg [| |]]|] eqn:Hi; try discriminate;
    injection Hstep as <-.
  - simpl. eapply last_series_callback; eauto; discriminate.
  - destruct err; simpl; eapply last_series_callback; eauto; discriminate.
Qed.

(** A batch is over as soon as it is handed out exactly when every message
    was resolved before its handler returned. *)
Lemma last_dispatched response st :
  count is_response_processed (log (dispatched response st))
  = S (count is_response_processed (log st))
  <-> forallb resolved (map (sync_item (this st)) response) = true.
Proof.
  unfold dispatched.
  destruct (sync_log_quiet (this st) response (log st)) as (Hr & _ & _).
  destruct (forallb resolved (map (sync_item (this st)) response)).
  - rewrite log_poll. cbn [log emit record set_log count this].
    destruct (poll_action_not_counted (this st)) as (-> & _).
    cbn [is_response_processed]. rewrite Hr. split; [reflexivity | lia].
  - cbn [log set_batches set_log]. rewrite Hr. split; [lia | discriminate].
Qed.

Lemma last_fetch st err msg rest st' :
  step st (EFetchDone err (Some (msg :: rest))) = Some st' ->
  count is_response_processed (log st')
  = S (count is_response_processed (log st))
  <-> forallb resolved (map (sync_item (this st)) (msg :: rest)) = true.
Proof.
  simpl. destruct (pendingFetches st) as [|n]; [discriminate|].
  intros [= <-]. unfold _handleQueueServiceResponse.
  rewrite each_dispatched.
  destruct err as [e|].
  - exact (last_dispatched _ (emit _ (set_pendingFetches n st))).
  - exact (last_dispatched _ (set_pendingFetches n st)).
Qed.

(** ** Frames of the fetch callback and of a step *)

Lemma frame_each response st :
  this (each response st) = this st
  /\ timers (each response st) = timers st
  /\ count is_timeout (log (each response st)) = count is_timeout (log st)
  /\ (chains (each response st) <= S (chains st))%nat
  /\ (stopped (this st) = true ->
      pendingFetches (each response st) = pendingFetches st
      /\ count is_fetch (log (each response st)) = count is_fetch (log st)).
Proof.
  unfold each.
  destruct (loop_frame_each_from response (length (batches st)) 0
              (set_batches
                 (batches st ++
                  [{| items := map (fun msg => (msg, Handling)) response;
                      completed := 0 |}]) st))
    as (Ht & Hm & Hc & Hl & Hs).
  cbn [this timers pendingFetches batches log set_batches] in *.
  rewrite length_app in Hc. cbn [length] in Hc.
  unfold chains. rewrite Hm.
  repeat split; try assumption; try lia; apply Hs; assumption.
Qed.

Lemma frame_handleQueueServiceResponse err response st :
  this (_handleQueueServiceResponse err response st) = this st
  /\ (chains (_handleQueueServiceResponse err response st) <= S (chains st))%nat
  /\ (stopped (this st) = true ->
      pendingFetches (_handleQueueServiceResponse err response st)
      = pendingFetches st
      /\ count is_fetch (log (_handleQueueServiceResponse err response st))
         = count is_fetch (log st)).
Proof.
  unfold _handleQueueServiceResponse.
  set (st1 := match err with Some e => emit _ st | None => st end).
  assert (this st1 = this st /\ chains st1 = chains st
          /\ pendingFetches st1 = pendingFetches st
          /\ count is_fetch (log st1) = count is_fetch (log st))
    as (Ht & Hc & Hp & Hf)
    by (subst st1; destruct err; repeat split).
  assert (forall ms,
    this (setTimeout ms st1) = this st
    /\ (chains (setTimeout ms st1) <= S (chains st))%nat
    /\ (stopped (this st) = true ->
        pendingFetches (setTimeout ms st1) = pendingFetches st
        /\ count is_fetch (log (setTimeout ms st1)) = count is_fetch (log st)))
    as Hto.
  { intros ms. unfold chains in *.
    cbn [this timers pendingFetches batches log setTimeout set_timers record
         count is_fetch].
    rewrite length_app. cbn [length].
    repeat split; try assumption; lia. }
  destruct response as [[|msg rest]|].
  - destruct err as [e|]; [destruct (isAuthenticationError e)|]; apply Hto.
  - destruct (frame_each (msg :: rest) st1) as (Ht' & _ & _ & Hc' & Hs').
    rewrite Ht in Hs'.
    split; [congruence|]. split; [lia|].
    intros Hst. destruct (Hs' Hst). split; congruence.
  - destruct err as [e|]; [destruct (isAuthenticationError e)|]; apply Hto.
Qed.

(** A step keeps the consumer object unless it is [start] or [stop], and
    adds no poll chain unless it is a [start] that finds the consumer
    stopped. *)
Lemma chains_step st ev st' :
  step st ev = Some st' ->
  (ev = EStart /\ stopped (this st) = true /\ chains st' = S (chains st))
  \/ (chains st' <= chains st)%nat.
Proof.
  intros Hstep. destruct ev as [| |err response|i|b i err|b i err];
    simpl in Hstep.
  - injection Hstep as <-. unfold start.
    destruct (stopped (this st)) eqn:Hs; [left | right; lia].
    split; [reflexivity|]. split; [reflexivity|].
    unfold _poll, chains. simpl. lia.
  - injection Hstep as <-. right. unfold chains. simpl. lia.
  - destruct (pendingFetches st) as [|n] eqn:Hp; [discriminate|].
    injection Hstep as <-. right.
    destruct (frame_handleQueueServiceResponse err response
                (set_pendingFetches n st)) as (_ & Hc & _).
    unfold chains in *. simpl in Hc. lia.
  - destruct (timers st !! i) eqn:Hi; [|discriminate].
    injection Hstep as <-. right.
    assert (is_Some (timers st !! i)) as Hsome by eauto.
    pose proof (length_delete _ _ Hsome) as Hlen.
    apply lookup_lt_Some in Hi.
    unfold _poll, chains.
    destruct (stopped (this (set_timers (delete i (timers st)) st)));
      simpl; lia.
  - destruct (item_of b i st) as [[msg [| |]]|]; try discriminate.
    injection Hstep as <-. right.
    destruct (loop_frame_handleMessage_callback b i msg err st)
      as (_ & Hm & Hc & _).
    unfold chains. rewrite Hm. lia.
  - destruct (item_of b i st) as [[msg [| |]]|]; try discriminate.
    injection Hstep as <-. right.
    destruct (loop_frame_deleteMessage_callback b i msg err st)
      as (_ & Hm & Hc & _).
    unfold chains. rewrite Hm. lia.
Qed.

Lemma stopped_step st ev st' :
  stopped (this st) = true -> ev <> EStart -> step st ev = Some st' ->
  stopped (this st') = true
  /\ count is_fetch (log st') = count is_fetch (log st)
  /\ (pendingFetches st' <= pendingFetches st)%nat.
Proof.
  intros Hs Hev Hstep. destruct ev as [| |err response|i|b i err|b i err];
    simpl in Hstep.
  - congruence.
  - injection Hstep as <-. simpl. auto.
  - destruct (pendingFetches st) as [|n] eqn:Hp; [discriminate|].
    injection Hstep as <-.
    destruct (frame_handleQueueServiceResponse err response
                (set_pendingFetches n st)) as (Ht & _ & Hq).
    destruct (Hq Hs) as [Hp' Hf]. simpl in *.
    rewrite Ht, Hp', Hf. repeat split; [assumption | lia].
  - destruct (timers st !! i) eqn:Hi; [|discriminate].
    injection Hstep as <-. unfold _poll. simpl. rewrite Hs. simpl. auto.
  - destruct (item_of b i st) as [[msg [| |]]|]; try discriminate.
    injection Hstep as <-.
    destruct (loop_frame_handleMessage_callback b i msg err st)
      as (Ht & _ & _ & _ & Hq).
    destruct (Hq Hs) as [Hp' Hf]. rewrite Ht, Hp', Hf.
    repeat split; [assumption | lia].
  - destruct (item_of b i st) as [[msg [| |]]|]; try discriminate.
    injection Hstep as <-.
    destruct (loop_frame_deleteMessage_callback b i msg err st)
      as (Ht & _ & _ & _ & Hq).
    destruct (Hq Hs) as [Hp' Hf]. rewrite Ht, Hp', Hf.
    repeat split; [assumption | lia].
Qed.

(** ** Lifecycle: [start] and [stop] *)

(** C6: [start] on a stopped consumer marks it running and makes exactly one
    [getMessages] call, whose callback is then outstanding, and touches
    nothing else; on a running consumer it changes nothing at all; so a
    second [start] right after a first has no effect. *)
Theorem start_fetches_once (st : State) :
  (stopped (this st) = true ->
     stopped (this (start st)) = false
     /\ log (start st)
        = GetMessages (queueName (this st))
            {| numOfMessages := batchSize (this st);
               maximumExecutionTimeInMs :=
                 maximumExecutionTimeSeconds (this st) * 1000;
               receiveVisibilityTimeout := visibilityTimeout (this st) |}
          :: log st
     /\ pendingFetches (start st) = S (pendingFetches st)
     /\ timers (start st) = timers st
     /\ batches (start st) = batches st)
  /\ (stopped (this st) = false -> start st = st)
  /\ start (start st) = start st.
Proof.
  unfold start.
  destruct (stopped (this st)) eqn:Hs.
  - split; [|split]; [intros _ | discriminate | reflexivity].
    repeat split.
  - split; [|split]; [discriminate | reflexivity |].
    rewrite Hs. reflexivity.
Qed.

(** The consumer of the example, started once and started twice. *)
Lemma start_fetches_once_witness :
  pendingFetches (start (initial example_consumer)) = 1%nat
  /\ count is_fetch (log (start (initial example_consumer))) = 1%nat
  /\ start (start (initial example_consumer)) = start (initial example_consumer).
Proof.
  destruct (start_fetches_once (initial example_consumer)) as (Hs & _ & Hi).
  destruct (Hs eq_refl) as (_ & Hl & Hp & _).
  split; [exact Hp|]. split; [rewrite Hl; reflexivity | exact Hi].
Defined.

Lemma stopped_run evs : forall st st',
  stopped (this st) = true -> ~ In EStart evs -> run st evs = Some st' ->
  stopped (this st') = true
  /\ count is_fetch (log st') = count is_fetch (log st)
  /\ (pendingFetches st' <= pendingFetches st)%nat.
Proof.
  induction evs as [|ev evs IH]; intros st st' Hs Hno Hrun; simpl in Hrun.
  - injection Hrun as <-. auto.
  - destruct (step st ev) as [st1|] eqn:Hstep; [|discriminate].
    assert (ev <> EStart) as Hev by (intros ->; apply Hno; left; reflexivity).
    destruct (stopped_step st ev st1 Hs Hev Hstep) as (Hs1 & Hf1 & Hp1).
    assert (~ In EStart evs) as Hno' by (intros Hin; apply Hno; right; exact Hin).
    destruct (IH st1 st' Hs1 Hno' Hrun) as (Hs' & Hf' & Hp').
    split; [exact Hs'|]. split; [congruence | lia].
Qed.

Lemma step_enabled_stop st ev :
  is_Some (step (stop st) ev) <-> is_Some (step st ev).
Proof.
  destruct ev as [| |err response|i|b i err|b i err]; simpl;
    try (split; intros _; eauto; fail).
  - destruct (pendingFetches st); [reflexivity|]. split; intros _; eauto.
  - destruct (timers st !! i); [|reflexivity]. split; intros _; eauto.
  - unfold item_of. simpl.
    destruct (batches st !! b) as [bt|]; [|reflexivity].
    destruct (items bt !! i) as [[msg [| |]]|]; try reflexivity.
    split; intros _; eauto.
  - unfold item_of. simpl.
    destruct (batches st !! b) as [bt|]; [|reflexivity].
    destruct (items bt !! i) as [[msg [| |]]|]; try reflexivity.
    split; intros _; eauto.
Qed.

(** C5: [stop] sets the flag and nothing else: the outstanding fetches,
    timers and batches and the log are as before, and every callback that
    was outstanding still is.  From then on, whatever callbacks run, as long
    as [start] is not called the consumer stays stopped, so that [_poll],
    whenever it runs next, emits ['stopped'] and fetches nothing, and no
    [getMessages] call is made. *)
Theorem stop_takes_effect_at_next_poll (st : State) :
  (stopped (this (stop st)) = true
   /\ pendingFetches (stop st) = pendingFetches st
   /\ timers (stop st) = timers st
   /\ batches (stop st) = batches st
   /\ log (stop st) = log st)
  /\ (forall ev, is_Some (step (stop st) ev) <-> is_Some (step st ev))
  /\ (forall evs st',
        ~ In EStart evs -> run (stop st) evs = Some st' ->
        stopped (this st') = true
        /\ _poll st' = emit SigStopped st'
        /\ count is_fetch (log st') = count is_fetch (log st)
        /\ (pendingFetches st' <= pendingFetches st)%nat).
Proof.
  split; [repeat split|].
  split; [apply step_enabled_stop|].
  intros evs st' Hno Hrun.
  destruct (stopped_run evs (stop st) st' eq_refl Hno Hrun) as (Hs & Hf & Hp).
  split; [exact Hs|]. split; [|split; [exact Hf | exact Hp]].
  unfold _poll. rewrite Hs. reflexivity.
Qed.

(** The example consumer is stopped while message B is with the handler;
    the handler and the delete call then succeed, and no fetch follows. *)
Lemma stop_takes_effect_at_next_poll_witness :
  run (initial example_consumer) fetch_B = Some handling_B
  /\ exists st',
       run (stop handling_B) finish_B = Some st'
       /\ stopped (this st') = true
       /\ _poll st' = emit SigStopped st'
       /\ count is_fetch (log st') = count is_fetch (log handling_B)
       /\ (pendingFetches st' <= pendingFetches handling_B)%nat.
Proof.
  split; [reflexivity|].
  eexists. split; [reflexivity|].
  destruct (stop_takes_effect_at_next_poll handling_B) as (_ & _ & Hrun).
  apply (Hrun finish_B).
  - simpl. intros [H|[H|[]]]; discriminate.
  - reflexivity.
Defined.

(** ** The fetch callback *)

Lemma isAuthenticationError_spec e :
  isAuthenticationError e = true
  <-> statusCode e = Some 403 \/ code e = Some "CredentialsError".
Proof.
  unfold isAuthenticationError, strict_eq_number, strict_eq_string.
  rewrite orb_true_iff.
  destruct (statusCode e) as [z|], (code e) as [s|];
    rewrite ?Z.eqb_eq, ?String.eqb_eq;
    intuition (try discriminate; try congruence).
Qed.

(** C2: when a fetch completes with no messages, the consumer emits one
    ['error'] signal if an error was reported and none otherwise, and sets
    one timer whose expiry runs [_poll]: after
    [authenticationErrorTimeoutSeconds] when the error is an authentication
    error (status code 403 or code 'CredentialsError'), after
    [pollDelaySeconds] when it is another error or there is none.  Nothing
    else changes. *)
Theorem empty_fetch_schedules_repoll (st st' : State) (err : option JsError)
    (response : option (list Message)) (delay : Z) :
  no_messages response ->
  st' = _handleQueueServiceResponse err response st ->
  delay = match err with
          | Some e =>
              if isAuthenticationError e
              then authenticationErrorTimeoutSeconds (this st) * 1000
              else pollDelaySeconds (this st) * 1000
          | None => pollDelaySeconds (this st) * 1000
          end ->
  (forall e, isAuthenticationError e = true
             <-> statusCode e = Some 403 \/ code e = Some "CredentialsError")
  /\ log st'
     = SetTimeout delay
       :: match err with
          | Some e =>
              Emit (SigError
                      (QueueServiceError
                         ("Queue service receive message failed: " ++ message e))
                      None) :: log st
          | None => log st
          end
  /\ timers st' = timers st ++ [delay]
  /\ pendingFetches st' = pendingFetches st
  /\ batches st' = batches st
  /\ this st' = this st
  /\ step st' (ETimerFired (length (timers st)))
     = Some (_poll (set_timers (timers st) st')).
Proof.
  intros Hresp -> ->.
  split; [exact isAuthenticationError_spec|].
  assert (forall ms s, step (setTimeout ms s) (ETimerFired (length (timers s)))
                       = Some (_poll (set_timers (timers s) (setTimeout ms s))))
    as Hfire.
  { intros ms s. cbn [step timers setTimeout set_timers].
    rewrite list_lookup_middle by reflexivity.
    rewrite delete_last. reflexivity. }
  unfold _handleQueueServiceResponse.
  destruct Hresp as [-> | ->];
    (destruct err as [e|]; [destruct (isAuthenticationError e)|]);
    (repeat split; first [apply Hfire | apply (Hfire _ (emit _ st))]).
Qed.

(** A fetch of the example consumer that fails with status 403 and brings
    no messages: one error signal, and a timer of 30 seconds. *)
Lemma empty_fetch_schedules_repoll_witness :
  log (_handleQueueServiceResponse (Some forbidden) None
         (initial example_consumer))
  = [SetTimeout 30000;
     Emit (SigError
             (QueueServiceError "Queue service receive message failed: Forbidden")
             None)]
  /\ timers (_handleQueueServiceResponse (Some forbidden) None
               (initial example_consumer)) = [30000].
Proof.
  destruct (empty_fetch_schedules_repoll (initial example_consumer) _
              (Some forbidden) None 30000 (or_introl eq_refl) eq_refl eq_refl)
    as (_ & Hlog & Htimers & _).
  split; [exact Hlog | exact Htimers].
Defined.

(** ** One poll chain *)

(** C3, as stated, fails: [stop(); start()] while a fetch is outstanding
    makes a second fetch, and while a timer is pending leaves that timer
    running next to the new fetch. *)
Lemma restart_duplicates_poll_chain :
  (exists st,
     run (initial example_consumer) [EStart; EStop; EStart] = Some st
     /\ pendingFetches st = 2%nat)
  /\ (exists st,
        run (initial example_consumer)
          [EStart; EFetchDone None None; EStop; EStart] = Some st
        /\ pendingFetches st = 1%nat /\ timers st = [1000]).
Proof.
  split; eexists; (split; [reflexivity|]); repeat split.
Qed.

(** C3 (amended): in every run in which [start] is called only while the
    consumer is running or while no fetch, timer or batch is outstanding,
    at most one fetch, timer or batch is outstanding at any time; in
    particular at most one fetch or one timer. *)
Theorem one_poll_chain (st : State) (evs : list Event) (st' : State) :
  (chains st <= 1)%nat ->
  guarded_run st evs = Some st' ->
  run st evs = Some st'
  /\ (chains st' <= 1)%nat
  /\ (pendingFetches st' + length (timers st') <= 1)%nat.
Proof.
  revert st. induction evs as [|ev evs IH]; intros st Hc Hrun; simpl in *.
  - injection Hrun as <-. unfold chains in *. repeat split; lia.
  - destruct (start_allowed st ev) eqn:Hok; [|discriminate].
    destruct (step st ev) as [st1|] eqn:Hstep; [|discriminate].
    apply IH; [|exact Hrun].
    destruct (chains_step st ev st1 Hstep) as [(-> & Hs & Hc1)|Hc1]; [|lia].
    simpl in Hok. rewrite Hs in Hok. simpl in Hok.
    apply Nat.eqb_eq in Hok. lia.
Qed.

(** The example consumer is started, fetches nothing, is stopped, observes
    the stop when its timer expires, and is started again, twice. *)
Lemma one_poll_chain_witness :
  exists st',
    run (initial example_consumer)
      [EStart; EFetchDone None None; EStop; ETimerFired 0; EStart; EStart]
    = Some st'
    /\ (chains st' <= 1)%nat
    /\ (pendingFetches st' + length (timers st') <= 1)%nat.
Proof.
  eexists.
  apply (one_poll_chain (initial example_consumer)
           [EStart; EFetchDone None None; EStop; ETimerFired 0; EStart; EStart]).
  - unfold chains. simpl. lia.
  - reflexivity.
Defined.

(** ** The barrier at the end of a batch *)

Lemma wf_initial c : wf (initial c).
Proof. unfold wf. simpl. constructor. Qed.

(** C4, as stated, fails: when [stop] is called while a batch is being
    processed, the batch ends with ['response_processed'] and then
    ['stopped']; no fetch follows. *)
Lemma stopped_batch_ends_without_fetch :
  exists st',
    run (initial example_consumer)
      [EStart; EFetchDone None (Some [msgB]); EStop;
       EHandlerDone 0 0 None; EDeleteDone 0 0 None] = Some st'
    /\ log st'
       = [Emit SigStopped;
          Emit SigResponseProcessed;
          Emit (SigMessageProcessed msgB);
          DeleteMessage (Some "jobs") "B" "receipt-B";
          Emit (SigMessageReceived msgB);
          GetMessages (Some "jobs")
            {| numOfMessages := 2; maximumExecutionTimeInMs := 10000;
               receiveVisibilityTimeout := None |}]
    /\ pendingFetches st' = 0%nat
    /\ timers st' = [].
Proof. eexists. split; [reflexivity|]. repeat split. Qed.

(** C4 (amended): along every run from a state whose batches each await a
    message (such as a new consumer's), every batch in flight still awaits
    a message; the ['response_processed'] signals and the batches in flight
    add up to the batches received, and the per-message outcome signals and
    the messages in flight to the messages received; and any further step
    either emits no ['response_processed'], or emits exactly one, sets no
    timer, and ends by running [_poll] at once, which fetches if the
    consumer is running and emits ['stopped'] if it is not. *)
Theorem batch_barrier (st : State) (evs : list Event) (st' : State) :
  wf st ->
  run st evs = Some st' ->
  wf st'
  /\ batches_seen st' = (batches_seen st + fetched_batches evs)%nat
  /\ messages_seen st' = (messages_seen st + fetched_messages evs)%nat
  /\ (forall ev st'',
        step st' ev = Some st'' ->
        barrier st' st'' (batches_of ev) (messages_of ev))
  /\ (forall ev b bt st'',
        resolves_in ev b -> batches st' !! b = Some bt ->
        step st' ev = Some st'' ->
        count is_response_processed (log st'')
        = S (count is_response_processed (log st'))
        <-> unresolved bt = 1%nat)
  /\ (forall err msg rest st'',
        step st' (EFetchDone err (Some (msg :: rest))) = Some st'' ->
        count is_response_processed (log st'')
        = S (count is_response_processed (log st'))
        <-> forallb resolved (map (sync_item (this st')) (msg :: rest)) = true).
Proof.
  revert st. induction evs as [|ev evs IH]; intros st Hwf Hrun; simpl in Hrun.
  - injection Hrun as <-. simpl.
    split; [exact Hwf|]. split; [lia|]. split; [lia|].
    split; [|split].
    + intros ev st'' Hstep. apply barrier_step; assumption.
    + intros ev b bt st''. apply last_step. exact Hwf.
    + intros err msg rest st''. apply last_fetch.
  - destruct (step st ev) as [st1|] eqn:Hstep; [|discriminate].
    destruct (barrier_step st ev st1 Hwf Hstep) as (Hwf1 & Hb1 & Hm1 & _).
    destruct (IH st1 Hwf1 Hrun) as (Hwf' & Hb' & Hm' & Hnext).
    fold (batches_of ev) in Hb1. fold (messages_of ev) in Hm1.
    split; [exact Hwf'|]. simpl.
    split; [lia|]. split; [lia | exact Hnext].
Qed.

Lemma batch_barrier_witness :
  exists st' st'',
    run (initial example_consumer) batch_scenario = Some st'
    /\ batches_seen st' = 1%nat
    /\ messages_seen st' = 2%nat
    /\ step st' (EDeleteDone 0 1 None) = Some st''
    /\ barrier st' st'' 0 0.
Proof.
  eexists. eexists.
  split; [reflexivity|].
  match goal with |- batches_seen ?s = _ /\ _ =>
    destruct (batch_barrier (initial example_consumer) batch_scenario s
                (wf_initial _) eq_refl) as (_ & Hb & Hm & Hnext & _)
  end.
  split; [exact Hb|]. split; [exact Hm|].
  split; [reflexivity|].
  apply (Hnext (EDeleteDone 0 1 None)). reflexivity.
Defined.

(** ** The outcome of one message *)

Lemma each_callback_resolved_by b i msg sig st :
  resolved_by (Emit sig) st (each_callback b i msg (emit sig st)).
Proof.
  unfold resolved_by, each_callback. cbn [batches emit record].
  destruct (batches st !! b) as [bt|]; [|left; reflexivity].
  match goal with |- context [if ?c then _ else _] => destruct c end.
  - right. rewrite log_poll. reflexivity.
  - left. reflexivity.
Qed.

Lemma series_callback_resolved_by b i msg err st :
  resolved_by
    (Emit match err with
          | Some e => failure_signal e msg
          | None => SigMessageProcessed msg
          end)
    st (series_callback b i msg err st).
Proof.
  destruct err as [e|].
  - rewrite series_callback_failure. apply each_callback_resolved_by.
  - apply each_callback_resolved_by.
Qed.

Lemma failure_signal_other e msg :
  name e <> QueueServiceError_name ->
  failure_signal e msg = SigProcessingError e msg.
Proof.
  intros Hne. unfold failure_signal.
  destruct (String.eqb_spec (name e) QueueServiceError_name);
    [contradiction | reflexivity].
Qed.

Lemma failure_signal_queue_service e msg :
  name e = QueueServiceError_name ->
  failure_signal e msg = SigError e (Some msg).
Proof. intros Heq. unfold failure_signal. rewrite Heq. reflexivity. Qed.

Lemma step_handler_failure st b i msg e :
  item_of b i st = Some (msg, Handling) ->
  step st (EHandlerDone b i (Some e))
  = Some (series_callback b i msg (Some e) st).
Proof. intros Hi. simpl. rewrite Hi. reflexivity. Qed.

Lemma step_delete_done st b i msg err :
  item_of b i st = Some (msg, Deleting) ->
  step st (EDeleteDone b i err)
  = Some (series_callback b i msg
            (match err with
             | Some e =>
                 Some (QueueServiceError
                         ("Queue service delete message failed: " ++ message e))
             | None => None
             end) st).
Proof. intros Hi. simpl. rewrite Hi. destruct err; reflexivity. Qed.

Lemma processMessage_cases st b i msg :
  _processMessage b i msg st
  = match call_handleMessage (this st) msg with
    | Throws err =>
        series_callback b i msg
          (Some (Error ("Unexpected message handler failure: " ++ message err)))
          (emit (SigMessageReceived msg) st)
    | Done (Some e) =>
        series_callback b i msg (Some e) (emit (SigMessageReceived msg) st)
    | Done None => _deleteMessage b i msg (emit (SigMessageReceived msg) st)
    | Pending => emit (SigMessageReceived msg) st
    end.
Proof.
  unfold _processMessage. cbn [this emit record].
  destruct (call_handleMessage (this st) msg) as [err|[err|]|]; reflexivity.
Qed.

Lemma log_deleteMessage b i msg st :
  log (_deleteMessage b i msg st)
  = DeleteMessage (queueName (this st)) (messageId msg) (popReceipt msg)
    :: log st.
Proof.
  unfold _deleteMessage, set_stage. cbn [batches record].
  destruct (batches st !! b); reflexivity.
Qed.

(** C1, as stated, fails: when the handler reports an error whose name is
    'QueueServiceError', the consumer emits ['error'], and no
    ['processing_error'] at all. *)
Lemma handler_failure_reported_as_error :
  exists st',
    run (initial example_consumer)
      [EStart; EFetchDone None (Some [msgB]); EHandlerDone 0 0 (Some impostor)]
    = Some st'
    /\ In (Emit (SigError impostor (Some msgB))) (log st')
    /\ count is_processing_error (log st') = 0%nat
    /\ count is_delete (log st') = 0%nat.
Proof.
  eexists. split; [reflexivity|].
  split; [right; right; left; reflexivity|]. split; reflexivity.
Qed.

(** C1 (amended): a message ends in one of these ways, and each time the
    consumer logs the one action named and, at most, the end of the batch.
    A handler that reports an error not named 'QueueServiceError', after it
    returned or before, gets ['processing_error'] with that error and the
    message, and no delete call; a handler that throws gets
    ['processing_error'] with a new [Error] that wraps the message of what
    was thrown; a handler that succeeds gets the delete call and nothing
    else; a delete call that fails gets ['error'] with a
    [QueueServiceError] that wraps the failure, and the message; a delete
    call that succeeds gets ['message_processed'] with the message. *)
Theorem message_outcome (st : State) (b i : nat) (msg : Message) (e : JsError) :
  (item_of b i st = Some (msg, Handling) ->
   name e <> QueueServiceError_name ->
   exists st',
     step st (EHandlerDone b i (Some e)) = Some st'
     /\ resolved_by (Emit (SigProcessingError e msg)) st st')
  /\ (call_handleMessage (this st) msg = Done (Some e) ->
      name e <> QueueServiceError_name ->
      resolved_by (Emit (SigProcessingError e msg))
        (emit (SigMessageReceived msg) st) (_processMessage b i msg st))
  /\ (call_handleMessage (this st) msg = Throws e ->
      resolved_by
        (Emit (SigProcessingError
                 (Error ("Unexpected message handler failure: " ++ message e))
                 msg))
        (emit (SigMessageReceived msg) st) (_processMessage b i msg st))
  /\ (item_of b i st = Some (msg, Handling) ->
      exists st',
        step st (EHandlerDone b i None) = Some st'
        /\ log st'
           = DeleteMessage (queueName (this st)) (messageId msg) (popReceipt msg)
             :: log st)
  /\ (call_handleMessage (this st) msg = Done None ->
      log (_processMessage b i msg st)
      = DeleteMessage (queueName (this st)) (messageId msg) (popReceipt msg)
        :: Emit (SigMessageReceived msg) :: log st)
  /\ (item_of b i st = Some (msg, Deleting) ->
      exists st',
        step st (EDeleteDone b i (Some e)) = Some st'
        /\ resolved_by
             (Emit (SigError
                      (QueueServiceError
                         ("Queue service delete message failed: " ++ message e))
                      (Some msg)))
             st st')
  /\ (item_of b i st = Some (msg, Deleting) ->
      exists st',
        step st (EDeleteDone b i None) = Some st'
        /\ resolved_by (Emit (SigMessageProcessed msg)) st st').
Proof.
  split; [|split; [|split; [|split; [|split; [|split]]]]].
  - intros Hi Hname. eexists. split; [apply step_handler_failure, Hi|].
    rewrite <- (failure_signal_other e msg Hname).
    apply (series_callback_resolved_by b i msg (Some e)).
  - intros Hcall Hname.
    rewrite (processMessage_cases st b i msg), Hcall.
    rewrite <- (failure_signal_other e msg Hname).
    apply (series_callback_resolved_by b i msg (Some e)).
  - intros Hcall.
    rewrite (processMessage_cases st b i msg), Hcall.
    apply (series_callback_resolved_by b i msg (Some (Error _))).
  - intros Hi. eexists. split; [simpl; rewrite Hi; reflexivity|].
    apply log_deleteMessage.
  - intros Hcall.
    rewrite (processMessage_cases st b i msg), Hcall.
    apply log_deleteMessage.
  - intros Hi. eexists. split; [apply (step_delete_done st b i msg (Some e)), Hi|].
    apply (series_callback_resolved_by b i msg (Some (QueueServiceError _))).
  - intros Hi. eexists. split; [apply (step_delete_done st b i msg None), Hi|].
    apply (series_callback_resolved_by b i msg None).
Qed.

(** The handler of the example fails on B with a plain error and throws on
    A; the delete call for B fails or succeeds. *)
Lemma message_outcome_witness :
  (exists st',
     step handling_B (EHandlerDone 0 0 (Some (Error "failed"))) = Some st'
     /\ resolved_by (Emit (SigProcessingError (Error "failed") msgB))
          handling_B st')
  /\ resolved_by
       (Emit (SigProcessingError
                (Error "Unexpected message handler failure: boom") msgA))
       (emit (SigMessageReceived msgA) (initial example_consumer))
       (_processMessage 0 0 msgA (initial example_consumer))
  /\ (exists st',
        step deleting_B (EDeleteDone 0 0 (Some forbidden)) = Some st'
        /\ resolved_by
             (Emit (SigError
                      (QueueServiceError
                         "Queue service delete message failed: Forbidden")
                      (Some msgB)))
             deleting_B st')
  /\ (exists st',
        step deleting_B (EDeleteDone 0 0 None) = Some st'
        /\ resolved_by (Emit (SigMessageProcessed msgB)) deleting_B st').
Proof.
  split; [|split; [|split]].
  - destruct (message_outcome handling_B 0 0 msgB (Error "failed"))
      as (H & _).
    apply H; [reflexivity | discriminate].
  - destruct (message_outcome (initial example_consumer) 0 0 msgA (Error "boom"))
      as (_ & _ & H & _).
    apply H. reflexivity.
  - destruct (message_outcome deleting_B 0 0 msgB forbidden)
      as (_ & _ & _ & _ & _ & H & _).
    apply H. reflexivity.
  - destruct (message_outcome deleting_B 0 0 msgB forbidden)
      as (_ & _ & _ & _ & _ & _ & H).
    apply H. reflexivity.
Defined.

(** C9: when the handler reports an error, after it returned or before, the
    consumer emits ['error'] if the name of the error is the string
    'QueueServiceError' and ['processing_error'] if it is not; nothing else
    about the error or about where it came from is looked at.  So an error
    of the handler with that name is reported as ['error']. *)
Theorem failure_signal_chosen_by_name (st : State) (b i : nat) (msg : Message)
    (e : JsError) (sig : Signal) :
  sig = (if String.eqb (name e) "QueueServiceError"
         then SigError e (Some msg) else SigProcessingError e msg) ->
  (item_of b i st = Some (msg, Handling) ->
   exists st',
     step st (EHandlerDone b i (Some e)) = Some st'
     /\ resolved_by (Emit sig) st st')
  /\ (call_handleMessage (this st) msg = Done (Some e) ->
      resolved_by (Emit sig)
        (emit (SigMessageReceived msg) st) (_processMessage b i msg st))
  /\ (name e = "QueueServiceError" -> sig = SigError e (Some msg))
  /\ (name e <> "QueueServiceError" -> sig = SigProcessingError e msg).
Proof.
  intros ->. fold QueueServiceError_name. fold (failure_signal e msg).
  split; [|split; [|split]].
  - intros Hi. eexists. split; [apply step_handler_failure, Hi|].
    apply (series_callback_resolved_by b i msg (Some e)).
  - intros Hcall. rewrite (processMessage_cases st b i msg), Hcall.
    apply (series_callback_resolved_by b i msg (Some e)).
  - apply failure_signal_queue_service.
  - apply failure_signal_other.
Qed.

(** The handler of the example reports, for B, an error that it has named
    'QueueServiceError'. *)
Lemma failure_signal_chosen_by_name_witness :
  exists st',
    step handling_B (EHandlerDone 0 0 (Some impostor)) = Some st'
    /\ resolved_by (Emit (SigError impostor (Some msgB))) handling_B st'.
Proof.
  destruct (failure_signal_chosen_by_name handling_B 0 0 msgB impostor
              (SigError impostor (Some msgB)) eq_refl) as (H & _).
  apply H. reflexivity.
Defined.

(** ** Messages before errors *)

Lemma received_sync_actions c msg l :
  received (sync_actions c msg ++ l) = msg :: received l.
Proof.
  unfold sync_actions, failure_signal.
  destruct (call_handleMessage c msg) as [e|[e|]|]; simpl;
    repeat match goal with |- context [String.eqb ?a ?b] =>
      destruct (String.eqb a b) end; reflexivity.
Qed.

Lemma received_sync_log c response : forall l,
  received (sync_log c response l) = rev response ++ received l.
Proof.
  induction response as [|msg rest IH]; intros l; simpl; [reflexivity|].
  rewrite IH, received_sync_actions, <- app_assoc. reflexivity.
Qed.

Lemma received_poll_action c l : received (poll_action c :: l) = received l.
Proof. unfold poll_action. destruct (stopped c); reflexivity. Qed.

Lemma received_dispatched response st :
  received (log (dispatched response st)) = rev response ++ received (log st).
Proof.
  unfold dispatched.
  destruct (forallb resolved (map (sync_item (this st)) response)).
  - rewrite log_poll, received_poll_action. cbn [log emit record set_log received].
    apply received_sync_log.
  - cbn [log set_batches set_log]. apply received_sync_log.
Qed.

Lemma batches_seen_dispatched response st :
  batches_seen (dispatched response st) = S (batches_seen st).
Proof.
  unfold dispatched, batches_seen.
  destruct (sync_log_quiet (this st) response (log st)) as (Hr & _ & _).
  destruct (forallb resolved (map (sync_item (this st)) response)).
  - rewrite log_poll, batches_poll.
    cbn [log batches this emit record set_log count].
    destruct (poll_action_not_counted (this st)) as (-> & _).
    cbn [is_response_processed]. rewrite Hr. lia.
  - cbn [log batches set_batches set_log]. rewrite Hr, length_app. simpl. lia.
Qed.

(** C8: a fetch callback that is given one or more messages hands every one
    of them to [_processMessage], in order, whether or not it was given an
    error as well; it sets no timer; and the batch is then in flight or
    already over.  An error that came along has been reported by one
    ['error'] signal before the first message. *)
Theorem messages_take_priority (st : State) (err : option JsError)
    (msg : Message) (rest : list Message) :
  _handleQueueServiceResponse err (Some (msg :: rest)) st
  = each (msg :: rest)
      match err with
      | Some e =>
          emit (SigError
                  (QueueServiceError
                     ("Queue service receive message failed: " ++ message e))
                  None) st
      | None => st
      end
  /\ received (log (_handleQueueServiceResponse err (Some (msg :: rest)) st))
     = rev (msg :: rest) ++ received (log st)
  /\ timers (_handleQueueServiceResponse err (Some (msg :: rest)) st) = timers st
  /\ count is_timeout
       (log (_handleQueueServiceResponse err (Some (msg :: rest)) st))
     = count is_timeout (log st)
  /\ batches_seen (_handleQueueServiceResponse err (Some (msg :: rest)) st)
     = S (batches_seen st).
Proof.
  split; [reflexivity|].
  unfold _handleQueueServiceResponse.
  set (st1 := match err with Some e => emit _ st | None => st end).
  destruct (frame_each (msg :: rest) st1) as (_ & Hm & Hl & _).
  rewrite Hm, Hl. rewrite each_dispatched.
  rewrite received_dispatched, batches_seen_dispatched.
  subst st1. destruct err; repeat split.
Qed.

(** * More of what the consumer does *)

(** ** The constructor *)

Lemma construct_normal_iff options c :
  construct options = Normal c ->
  validate options = Normal tt.
Proof.
  unfold construct. destruct (validate options) as [[]|e];
    [reflexivity | discriminate].
Qed.

Lemma validate_normal_batchSize options :
  validate options = Normal tt ->
  ~ out_of_range (Options.batchSize options).
Proof.
  intros Hv Hout.
  assert (exists e, validate options = Throw e) as [e He].
  { apply validate_throws_iff. right. right. exact Hout. }
  congruence.
Qed.

Lemma batchSize_in_range options c :
  construct options = Normal c -> 1 <= batchSize c <= 10.
Proof.
  intros Hc. pose proof (construct_normal_iff _ _ Hc) as Hv.
  pose proof (validate_normal_batchSize _ Hv) as Hin.
  unfold construct in Hc. rewrite Hv in Hc. injection Hc as <-. simpl.
  unfold out_of_range in Hin.
  destruct (Options.batchSize options) as [[|z]|]; simpl; try lia.
  assert (~ (z < 1 \/ 10 < z)) as Hz by (intros H; apply Hin; eauto).
  destruct (Z.eqb_spec z 0); lia.
Qed.

(** X1: construction reports the first check that fails, in the order
    queue name, handler, batch size, each with its own message; a falsy
    queue name hides a missing handler and a bad batch size, and a missing
    handler hides a bad batch size. *)
Theorem construct_reports_first_failure (options : Options.t) :
  (truthy_string (Options.queueName options) = false ->
   construct options
   = Throw (Error "Missing queue service consumer option [queueName]."))
  /\ (truthy_string (Options.queueName options) = true ->
      Options.handleMessage options = None ->
      construct options
      = Throw (Error "Missing queue service consumer option [handleMessage]."))
  /\ (truthy_string (Options.queueName options) = true ->
      Options.handleMessage options <> None ->
      out_of_range (Options.batchSize options) ->
      construct options
      = Throw (Error "Queue batchSize option must be between 1 and 10.")).
Proof.
  assert (missing_option options "queueName"
          = negb (truthy_string (Options.queueName options))) as Hq
    by reflexivity.
  assert (missing_option options "handleMessage"
          = match Options.handleMessage options with
            | Some _ => false
            | None => true
            end) as Hm by reflexivity.
  unfold construct, validate, requiredOptions. cbn [find]. rewrite Hq, Hm.
  split; [|split].
  - intros ->. reflexivity.
  - intros -> ->. reflexivity.
  - intros -> Hh Hout.
    destruct (Options.handleMessage options); [|congruence].
    apply range_check_spec in Hout. cbn [negb]. rewrite Hout. reflexivity.
Qed.

(** Options that fail every check are reported for their queue name. *)
Lemma construct_reports_first_failure_witness :
  construct {| Options.queueName := None;
               Options.handleMessage := None;
               Options.batchSize := Some (Num 11);
               Options.pollDelaySeconds := None;
               Options.maximumExecutionTimeSeconds := None;
               Options.authenticationErrorTimeoutSeconds := None |}
  = Throw (Error "Missing queue service consumer option [queueName].").
Proof.
  refine (proj1 (construct_reports_first_failure _) _). reflexivity.
Defined.

(** X2: the batch size of every consumer that construction yields lies
    between 1 and 10, and is the number the options gave when they gave
    one that is not 0. *)
Theorem constructed_batchSize_in_range (options : Options.t) (c : Consumer) :
  construct options = Normal c ->
  1 <= batchSize c <= 10
  /\ forall z, Options.batchSize options = Some (Num z) -> z <> 0 ->
               batchSize c = z.
Proof.
  intros Hc. split; [exact (batchSize_in_range _ _ Hc)|].
  intros z Hz Hnz. pose proof (construct_normal_iff _ _ Hc) as Hv.
  unfold construct in Hc. rewrite Hv in Hc. injection Hc as <-. simpl.
  rewrite Hz. simpl. destruct (Z.eqb_spec z 0); [contradiction | reflexivity].
Qed.

Lemma constructed_batchSize_in_range_witness :
  1 <= batchSize example_consumer <= 10
  /\ forall z, Options.batchSize example_options = Some (Num z) -> z <> 0 ->
               batchSize example_consumer = z.
Proof.
  exact (constructed_batchSize_in_range example_options example_consumer
           eq_refl).
Defined.

(** X3: the three delays are not validated: whatever they are, the same
    options are accepted or rejected, and a delay that is a number other
    than 0, negative ones included, is stored as given. *)
Theorem delays_are_not_validated (options : Options.t)
    (p m a : option JsNumber) :
  (rejected (with_delays p m a options) <-> rejected options)
  /\ forall c, construct (with_delays p m a options) = Normal c ->
       (forall z, p = Some (Num z) -> z <> 0 -> pollDelaySeconds c = z)
       /\ (forall z, m = Some (Num z) -> z <> 0 ->
                     maximumExecutionTimeSeconds c = z)
       /\ (forall z, a = Some (Num z) -> z <> 0 ->
                     authenticationErrorTimeoutSeconds c = z).
Proof.
  split.
  - rewrite !construct_validate, !validate_throws_iff. reflexivity.
  - intros c Hc. pose proof (construct_normal_iff _ _ Hc) as Hv.
    unfold construct in Hc. rewrite Hv in Hc. injection Hc as <-. simpl.
    repeat split; intros z -> Hz; simpl;
      destruct (Z.eqb_spec z 0); try contradiction; reflexivity.
Qed.

(** A poll delay of -5 seconds is accepted and kept. *)
Lemma delays_are_not_validated_witness :
  exists c, construct options_negative_delay = Normal c
            /\ pollDelaySeconds c = -5.
Proof.
  eexists. split; [reflexivity|].
  destruct (delays_are_not_validated options_negative_delay
              (Some (Num (-5))) None None) as (_ & H).
  destruct (H _ eq_refl) as (Hp & _).
  apply (Hp (-5)); [reflexivity | discriminate].
Defined.

(** ** What a step logs *)

Lemma sync_log_nil c response : forall l,
  sync_log c response l = sync_log c response [] ++ l.
Proof.
  induction response as [|msg rest IH]; intros l; simpl; [reflexivity|].
  rewrite IH, (IH (sync_actions c msg ++ [])), app_nil_r, <- app_assoc.
  reflexivity.
Qed.

Lemma log_each_callback b i msg st :
  exists e, batch_end (this st) e
            /\ log (each_callback b i msg st) = e ++ log st.
Proof.
  unfold each_callback, batch_end.
  destruct (batches st !! b) as [bt|]; [|exists []; auto].
  match goal with |- context [if ?c then _ else _] => destruct c end.
  - eexists. split; [right; reflexivity|]. rewrite log_poll. reflexivity.
  - exists []. auto.
Qed.

Lemma log_series_callback b i msg err st :
  exists e, batch_end (this st) e
            /\ log (series_callback b i msg err st)
               = e ++ Emit match err with
                           | Some e' => failure_signal e' msg
                           | None => SigMessageProcessed msg
                           end :: log st.
Proof.
  destruct err as [e'|].
  - rewrite series_callback_failure.
    apply (log_each_callback b i msg (emit (failure_signal e' msg) st)).
  - apply (log_each_callback b i msg (emit (SigMessageProcessed msg) st)).
Qed.

Lemma log_dispatched response st :
  exists e, batch_end (this st) e
            /\ log (dispatched response st)
               = e ++ sync_log (this st) response [] ++ log st.
Proof.
  unfold dispatched, batch_end.
  rewrite (sync_log_nil (this st) response (log st)).
  destruct (forallb resolved (map (sync_item (this st)) response)).
  - eexists. split; [right; reflexivity|]. rewrite log_poll. reflexivity.
  - exists []. auto.
Qed.

(** A step logs the actions of its callback and then, at most, the end of
    a batch. *)
Lemma log_step st ev st' :
  step st ev = Some st' ->
  exists e, batch_end (this st) e
            /\ log st' = e ++ step_actions st ev ++ log st.
Proof.
  intros Hstep. destruct ev as [| |err response|i|b i err|b i err];
    simpl in Hstep.
  - injection Hstep as <-. exists []. split; [left; reflexivity|].
    unfold start. simpl. destruct (stopped (this st)); reflexivity.
  - injection Hstep as <-. exists []. split; [left; reflexivity|]. reflexivity.
  - destruct (pendingFetches st) as [|n]; [discriminate|].
    injection Hstep as <-. unfold _handleQueueServiceResponse.
    set (st1 := match err with Some e => emit _ (set_pendingFetches n st)
                          | None => set_pendingFetches n st end).
    assert (this st1 = this st) as Ht by (subst st1; destruct err; reflexivity).
    assert (log st1
            = match err with
              | Some e =>
                  [Emit (SigError
                           (QueueServiceError
                              ("Queue service receive message failed: "
                               ++ message e)) None)]
              | None => []
              end ++ log st) as Hl
      by (subst st1; destruct err; reflexivity).
    destruct response as [[|msg rest]|].
    + exists []. split; [left; reflexivity|].
      subst st1. unfold step_actions, repoll_delay.
      destruct err as [e|]; [destruct (isAuthenticationError e)|]; reflexivity.
    + rewrite each_dispatched.
      destruct (log_dispatched (msg :: rest) st1) as (e & He & Hlog).
      rewrite Ht in He, Hlog. exists e. split; [exact He|].
      rewrite Hlog, Hl. cbn [step_actions]. rewrite <- !app_assoc. reflexivity.
    + exists []. split; [left; reflexivity|].
      subst st1. unfold step_actions, repoll_delay.
      destruct err as [e|]; [destruct (isAuthenticationError e)|]; reflexivity.
  - destruct (timers st !! i); [|discriminate].
    injection Hstep as <-. exists []. split; [left; reflexivity|].
    rewrite log_poll. reflexivity.
  - cbn [step_actions]. destruct (item_of b i st) as [[msg [| |]]|];
      try discriminate.
    injection Hstep as <-. destruct err as [e'|]; simpl.
    + apply (log_series_callback b i msg (Some e') st).
    + exists []. split; [left; reflexivity|]. apply log_deleteMessage.
  - cbn [step_actions]. destruct (item_of b i st) as [[msg [| |]]|];
      try discriminate.
    injection Hstep as <-. destruct err as [e'|]; simpl.
    + apply (log_series_callback b i msg (Some (QueueServiceError _)) st).
    + apply (log_series_callback b i msg None st).
Qed.

Lemma count_batch_end (p : Action -> bool) c e :
  batch_end c e ->
  p (Emit SigResponseProcessed) = false ->
  p (Emit SigStopped) = false ->
  (forall q params, p (GetMessages q params) = false) ->
  count p e = 0%nat.
Proof.
  intros [-> | ->] Hrp Hst Hget; [reflexivity|].
  unfold poll_action. destruct (stopped c); simpl; rewrite Hrp, ?Hst, ?Hget;
    reflexivity.
Qed.

(** ** The consumer object along a run *)

Lemma this_step st ev st' :
  step st ev = Some st' ->
  same_config (this st) (this st')
  /\ stopped (this st')
     = match ev with
       | EStart => false
       | EStop => true
       | _ => stopped (this st)
       end.
Proof.
  assert (forall s s', this s' = this s ->
            same_config (this s) (this s')
            /\ stopped (this s') = stopped (this s)) as Hsame
    by (intros s s' ->; unfold same_config; repeat split).
  intros Hstep. destruct ev as [| |err response|i|b i err|b i err];
    simpl in Hstep.
  - injection Hstep as <-. unfold start.
    destruct (stopped (this st)) eqn:Hs.
    + rewrite this_poll. unfold same_config. simpl. repeat split.
    + unfold same_config. repeat split. exact Hs.
  - injection Hstep as <-. unfold same_config. simpl. repeat split.
  - destruct (pendingFetches st) as [|n]; [discriminate|].
    injection Hstep as <-. apply Hsame.
    apply (frame_handleQueueServiceResponse err response
             (set_pendingFetches n st)).
  - destruct (timers st !! i); [|discriminate].
    injection Hstep as <-. apply Hsame.
    apply (this_poll (set_timers (delete i (timers st)) st)).
  - destruct (item_of b i st) as [[msg [| |]]|]; try discriminate.
    injection Hstep as <-. apply Hsame.
    apply (loop_frame_handleMessage_callback b i msg err st).
  - destruct (item_of b i st) as [[msg [| |]]|]; try discriminate.
    injection Hstep as <-. apply Hsame.
    apply (loop_frame_deleteMessage_callback b i msg err st).
Qed.

Lemma same_config_trans c1 c2 c3 :
  same_config c1 c2 -> same_config c2 c3 -> same_config c1 c3.
Proof.
  unfold same_config. intros (?&?&?&?&?&?&?&?) (?&?&?&?&?&?&?&?).
  repeat split; congruence.
Qed.

Lemma same_config_refl c : same_config c c.
Proof. unfold same_config. repeat split. Qed.

(** X4: along every run the consumer object keeps its queue name, handler,
    batch size and delays; only the [stopped] flag changes, and it is what
    the last call of [start] or [stop] made it, whatever callbacks ran
    since. *)
Theorem config_is_kept (st : State) (evs : list Event) (st' : State) :
  run st evs = Some st' ->
  same_config (this st) (this st')
  /\ stopped (this st') = flag_after (stopped (this st)) evs.
Proof.
  revert st. induction evs as [|ev evs IH]; intros st Hrun; simpl in Hrun.
  - injection Hrun as <-. split; [apply same_config_refl | reflexivity].
  - destruct (step st ev) as [st1|] eqn:Hstep; [|discriminate].
    destruct (this_step st ev st1 Hstep) as (Hc1 & Hs1).
    destruct (IH st1 Hrun) as (Hc' & Hs').
    split; [eapply same_config_trans; eassumption|].
    rewrite Hs', Hs1. destruct ev; reflexivity.
Qed.

Lemma long_run : run (initial example_consumer) long_scenario = Some long_end.
Proof. vm_compute. reflexivity. Qed.

(** After the long scenario of the example the consumer is as constructed,
    and running, as its last [start] left it. *)
Lemma config_is_kept_witness :
  same_config example_consumer (this long_end)
  /\ stopped (this long_end) = false.
Proof.
  exact (config_is_kept (initial example_consumer) long_scenario _ long_run).
Defined.

(** ** The calls the consumer makes *)






Lemma sync_log_cons c msg rest :
  sync_log c (msg :: rest) [] = sync_log c rest [] ++ sync_actions c msg.
Proof. simpl. rewrite sync_log_nil, app_nil_r. reflexivity. Qed.






(** ** Accounting for messages, deletes and fetches *)

Lemma received_app l1 l2 : received (l1 ++ l2) = received l1 ++ received l2.
Proof.
  induction l1 as [|a l1 IH]; [reflexivity|].
  destruct a as [[]| | |]; simpl; rewrite IH; reflexivity.
Qed.

Lemma received_batch_end c e : batch_end c e -> received e = [].
Proof.
  intros [-> | ->]; [reflexivity|]. rewrite received_poll_action. reflexivity.
Qed.

Lemma received_step_actions st ev st' :
  step st ev = Some st' ->
  received (step_actions st ev) = rev (fetched_of ev).
Proof.
  intros Hstep. destruct ev as [| |err response|i|b i err|b i err];
    cbn [step_actions fetched_of].
  - destruct (stopped (this st)); reflexivity.
  - reflexivity.
  - rewrite received_app.
    replace (received match err with
                      | Some e => [Emit (SigError _ None)]
                      | None => []
                      end) with (@nil Message) by (destruct err; reflexivity).
    rewrite app_nil_r.
    destruct response as [[|msg rest]|]; try reflexivity.
    rewrite received_sync_log. apply app_nil_r.
  - apply received_poll_action.
  - destruct (item_of b i st) as [[msg stage]|]; [|reflexivity].
    destruct err as [e|]; [|reflexivity].
    unfold failure_signal. destruct (String.eqb _ _); reflexivity.
  - destruct (item_of b i st) as [[msg stage]|]; [|reflexivity].
    destruct err; reflexivity.
Qed.

(** X6: the messages announced by ['message_received'] are exactly the
    messages the fetches brought, each once, in the order in which they
    were brought. *)
Theorem messages_announced_in_order (st : State) (evs : list Event)
    (st' : State) :
  run st evs = Some st' ->
  received (log st') = rev (fetched evs) ++ received (log st).
Proof.
  revert st. induction evs as [|ev evs IH]; intros st Hrun; simpl in Hrun.
  - injection Hrun as <-. reflexivity.
  - destruct (step st ev) as [st1|] eqn:Hstep; [|discriminate].
    destruct (log_step st ev st1 Hstep) as (e & He & Hlog).
    rewrite (IH st1 Hrun), Hlog, !received_app.
    rewrite (received_batch_end _ _ He), (received_step_actions _ _ _ Hstep).
    simpl. rewrite rev_app_distr, <- app_assoc. reflexivity.
Qed.

Lemma messages_announced_in_order_witness :
  received (log long_end) = [msgB; msgA].
Proof.
  exact (messages_announced_in_order (initial example_consumer) long_scenario
           long_end long_run).
Defined.

Lemma tally_ext f g evs :
  (forall ev, f ev = g ev) -> tally f evs = tally g evs.
Proof.
  intros Hfg. induction evs as [|ev evs IH]; simpl; [reflexivity|].
  rewrite Hfg, IH. reflexivity.
Qed.

Lemma count_step p st ev st' :
  not_batch_end p ->
  step st ev = Some st' ->
  count p (log st') = (count p (step_actions st ev) + count p (log st))%nat.
Proof.
  intros (Hrp & Hst & Hget) Hstep.
  destruct (log_step st ev st' Hstep) as (e & He & ->).
  rewrite !count_app, (count_batch_end p _ e He Hrp Hst Hget). reflexivity.
Qed.

Lemma count_run p f evs :
  not_batch_end p ->
  (forall st ev st', step st ev = Some st' ->
                     count p (step_actions st ev) = f ev) ->
  forall st st', run st evs = Some st' ->
  count p (log st') = (count p (log st) + tally f evs)%nat.
Proof.
  intros Hp Hf. induction evs as [|ev evs IH]; intros st st' Hrun;
    simpl in Hrun.
  - injection Hrun as <-. simpl. lia.
  - destruct (step st ev) as [st1|] eqn:Hstep; [|discriminate].
    rewrite (IH st1 st' Hrun), (count_step p st ev st1 Hp Hstep),
      (Hf st ev st1 Hstep). simpl. lia.
Qed.

Lemma count_delete_sync_actions c msg :
  count is_delete (sync_actions c msg)
  = if succeeds_at_once c msg then 1%nat else 0%nat.
Proof.
  unfold sync_actions, succeeds_at_once, failure_signal.
  destruct (call_handleMessage c msg) as [e|[e|]|]; cbn [count];
    repeat match goal with |- context [String.eqb ?a ?b] =>
      destruct (String.eqb a b) end; reflexivity.
Qed.

Lemma count_delete_sync_log c response :
  count is_delete (sync_log c response []) = count (succeeds_at_once c) response.
Proof.
  induction response as [|msg rest IH]; [reflexivity|].
  rewrite sync_log_cons, count_app, IH, count_delete_sync_actions.
  simpl. lia.
Qed.

Lemma count_quiet_sync_actions p c msg :
  (forall e m, p (Emit (failure_signal e m)) = false) ->
  (forall m, p (Emit (SigMessageReceived m)) = false) ->
  (forall q id r, p (DeleteMessage q id r) = false) ->
  count p (sync_actions c msg) = 0%nat.
Proof.
  intros Ho Hr Hd. unfold sync_actions.
  destruct (call_handleMessage c msg) as [e|[e|]|]; cbn [count];
    rewrite ?Hr, ?Hd, ?Ho; reflexivity.
Qed.

Lemma count_quiet_sync_log p c response :
  (forall e m, p (Emit (failure_signal e m)) = false) ->
  (forall m, p (Emit (SigMessageReceived m)) = false) ->
  (forall q id r, p (DeleteMessage q id r) = false) ->
  count p (sync_log c response []) = 0%nat.
Proof.
  intros Ho Hr Hd. induction response as [|msg rest IH]; [reflexivity|].
  rewrite sync_log_cons, count_app, IH, (count_quiet_sync_actions p c msg);
    auto.
Qed.

Lemma succeeds_at_once_same c c' msg :
  same_config c c' -> succeeds_at_once c' msg = succeeds_at_once c msg.
Proof.
  unfold same_config, succeeds_at_once, call_handleMessage.
  intros (_ & -> & _). reflexivity.
Qed.

Lemma count_ext {A} (p q : A -> bool) (l : list A) :
  (forall x, p x = q x) -> count p l = count q l.
Proof.
  intros Hpq. induction l as [|x l IH]; simpl; [reflexivity|].
  rewrite Hpq, IH. reflexivity.
Qed.

Lemma handler_successes_same c c' ev :
  same_config c c' -> handler_successes_of c' ev = handler_successes_of c ev.
Proof.
  intros Hcfg. destruct ev as [| |err [l|]|i|b i err|b i err]; try reflexivity.
  simpl. apply count_ext. intros msg. apply succeeds_at_once_same, Hcfg.
Qed.

Lemma count_delete_step_actions st ev st' :
  step st ev = Some st' ->
  count is_delete (step_actions st ev) = handler_successes_of (this st) ev.
Proof.
  intros Hstep. destruct ev as [| |err response|i|b i err|b i err];
    cbn [step_actions handler_successes_of].
  - destruct (stopped (this st)); reflexivity.
  - reflexivity.
  - rewrite count_app.
    replace (count is_delete match err with
                             | Some e => [Emit (SigError _ None)]
                             | None => []
                             end) with 0%nat by (destruct err; reflexivity).
    destruct response as [[|msg rest]|]; try reflexivity.
    rewrite count_delete_sync_log. lia.
  - unfold poll_action. destruct (stopped (this st)); reflexivity.
  - simpl in Hstep.
    destruct (item_of b i st) as [[msg stage]|]; [|discriminate].
    destruct err as [e|]; [|reflexivity].
    unfold failure_signal. destruct (String.eqb _ _); reflexivity.
  - simpl in Hstep.
    destruct (item_of b i st) as [[msg stage]|]; [|discriminate].
    destruct err; reflexivity.
Qed.

(** X7: a delete call is made once for every time the handler succeeds,
    whether it reports its success before it returns or after, and at no
    other time: not when the handler fails or throws, and not twice. *)
Theorem deletes_follow_handler_successes (st : State) (evs : list Event)
    (st' : State) :
  run st evs = Some st' ->
  count is_delete (log st')
  = (count is_delete (log st) + tally (handler_successes_of (this st)) evs)%nat.
Proof.
  revert st. induction evs as [|ev evs IH]; intros st Hrun; simpl in Hrun.
  - injection Hrun as <-. simpl. lia.
  - destruct (step st ev) as [st1|] eqn:Hstep; [|discriminate].
    destruct (this_step st ev st1 Hstep) as (Hcfg & _).
    assert (not_batch_end is_delete) as Hp by (repeat split).
    rewrite (IH st1 Hrun), (count_step is_delete st ev st1 Hp Hstep),
      (count_delete_step_actions st ev st1 Hstep).
    rewrite (tally_ext _ (handler_successes_of (this st)) evs
               (fun ev0 => handler_successes_same _ _ ev0 Hcfg)).
    simpl. lia.
Qed.

Lemma deletes_follow_handler_successes_witness :
  count is_delete (log long_end) = 1%nat.
Proof.
  exact (deletes_follow_handler_successes (initial example_consumer)
           long_scenario long_end long_run).
Defined.

Lemma failure_signal_quiet e m :
  is_message_processed (Emit (failure_signal e m)) = false
  /\ is_fetch_error (Emit (failure_signal e m)) = false
  /\ is_timeout (Emit (failure_signal e m)) = false
  /\ is_stopped_signal (Emit (failure_signal e m)) = false.
Proof. unfold failure_signal. destruct (String.eqb _ _); repeat split. Qed.

Lemma count_processed_step_actions st ev st' :
  step st ev = Some st' ->
  count is_message_processed (step_actions st ev) = delete_successes_of ev.
Proof.
  intros Hstep. destruct ev as [| |err response|i|b i err|b i err];
    cbn [step_actions delete_successes_of].
  - destruct (stopped (this st)); reflexivity.
  - reflexivity.
  - rewrite count_app.
    replace (count is_message_processed
               match err with
               | Some e => [Emit (SigError _ None)]
               | None => []
               end) with 0%nat by (destruct err; reflexivity).
    destruct response as [[|msg rest]|]; try reflexivity.
    rewrite count_quiet_sync_log; [reflexivity | | reflexivity | reflexivity].
    intros e m. apply failure_signal_quiet.
  - unfold poll_action. destruct (stopped (this st)); reflexivity.
  - destruct (item_of b i st) as [[msg stage]|]; [|reflexivity].
    destruct err as [e|]; [|reflexivity].
    cbn [count]. destruct (failure_signal_quiet e msg) as (-> & _). reflexivity.
  - simpl in Hstep.
    destruct (item_of b i st) as [[msg stage]|]; [|discriminate].
    destruct err; reflexivity.
Qed.

(** X8: ['message_processed'] is emitted once for every delete call that
    succeeds, and at no other time: a message is never reported processed
    unless its delete call was made and succeeded. *)
Theorem processed_follows_delete_successes (st : State) (evs : list Event)
    (st' : State) :
  run st evs = Some st' ->
  count is_message_processed (log st')
  = (count is_message_processed (log st) + tally delete_successes_of evs)%nat.
Proof.
  apply count_run; [repeat split|].
  exact count_processed_step_actions.
Qed.

Lemma processed_follows_delete_successes_witness :
  count is_message_processed (log long_end) = 1%nat.
Proof.
  exact (processed_follows_delete_successes (initial example_consumer)
           long_scenario long_end long_run).
Defined.

Lemma count_fetch_error_step_actions st ev st' :
  step st ev = Some st' ->
  count is_fetch_error (step_actions st ev) = fetch_errors_of ev.
Proof.
  intros Hstep. destruct ev as [| |err response|i|b i err|b i err];
    cbn [step_actions fetch_errors_of].
  - destruct (stopped (this st)); reflexivity.
  - reflexivity.
  - rewrite count_app.
    replace (count is_fetch_error
               match err with
               | Some e => [Emit (SigError (QueueServiceError
                   ("Queue service receive message failed: " ++ message e)) None)]
               | None => []
               end) with (match err with Some _ => 1 | None => 0 end)%nat
      by (destruct err; reflexivity).
    destruct response as [[|msg rest]|]; try reflexivity.
    rewrite count_quiet_sync_log; [reflexivity | | reflexivity | reflexivity].
    intros e m. apply failure_signal_quiet.
  - unfold poll_action. destruct (stopped (this st)); reflexivity.
  - destruct (item_of b i st) as [[msg stage]|]; [|reflexivity].
    destruct err as [e|]; [|reflexivity].
    cbn [count]. destruct (failure_signal_quiet e msg) as (_ & -> & _).
    reflexivity.
  - destruct (item_of b i st) as [[msg stage]|]; [|reflexivity].
    destruct err; reflexivity.
Qed.

Lemma count_timeout_step_actions st ev st' :
  step st ev = Some st' ->
  count is_timeout (step_actions st ev) = empty_fetches_of ev.
Proof.
  intros Hstep. destruct ev as [| |err response|i|b i err|b i err];
    cbn [step_actions empty_fetches_of].
  - destruct (stopped (this st)); reflexivity.
  - reflexivity.
  - rewrite count_app.
    replace (count is_timeout
               match err with
               | Some e => [Emit (SigError _ None)]
               | None => []
               end) with 0%nat by (destruct err; reflexivity).
    destruct response as [[|msg rest]|]; try reflexivity.
    rewrite count_quiet_sync_log; [reflexivity | | reflexivity | reflexivity].
    intros e m. apply failure_signal_quiet.
  - unfold poll_action. destruct (stopped (this st)); reflexivity.
  - destruct (item_of b i st) as [[msg stage]|]; [|reflexivity].
    destruct err as [e|]; [|reflexivity].
    cbn [count]. destruct (failure_signal_quiet e msg) as (_ & _ & -> & _).
    reflexivity.
  - destruct (item_of b i st) as [[msg stage]|]; [|reflexivity].
    destruct err; reflexivity.
Qed.

(** X9: every fetch that completes with an error is reported by exactly
    one ['error'] signal without a message, also when it brought messages,
    and no other ['error'] signal lacks a message; and exactly the fetches
    that bring no messages set a timer, one each. *)
Theorem fetch_completions_accounted (st : State) (evs : list Event)
    (st' : State) :
  run st evs = Some st' ->
  count is_fetch_error (log st')
  = (count is_fetch_error (log st) + tally fetch_errors_of evs)%nat
  /\ count is_timeout (log st')
     = (count is_timeout (log st) + tally empty_fetches_of evs)%nat.
Proof.
  intros Hrun. split.
  - revert st st' Hrun. apply count_run; [repeat split|].
    exact count_fetch_error_step_actions.
  - revert st st' Hrun. apply count_run; [repeat split|].
    exact count_timeout_step_actions.
Qed.

Lemma fetch_completions_accounted_witness :
  count is_fetch_error (log long_end) = 1%nat
  /\ count is_timeout (log long_end) = 1%nat.
Proof.
  exact (fetch_completions_accounted (initial example_consumer)
           long_scenario long_end long_run).
Defined.

(** ** Poll chains are conserved *)

Lemma chains_seen_poll st : chains_seen (_poll st) = S (chains_seen st).
Proof.
  unfold _poll, chains_seen, chains.
  destruct (stopped (this st)); simpl; lia.
Qed.

Lemma chains_seen_each_callback b i msg st :
  chains_seen (each_callback b i msg st) = chains_seen st.
Proof.
  unfold each_callback.
  destruct (batches st !! b) as [bt|] eqn:Hb; [|reflexivity].
  assert (is_Some (batches st !! b)) as Hsome by eauto.
  pose proof (length_delete _ _ Hsome) as Hdel.
  apply lookup_lt_Some in Hb.
  match goal with |- context [if ?c then _ else _] => destruct c end.
  - rewrite chains_seen_poll. unfold chains_seen, chains. simpl. lia.
  - unfold chains_seen, chains. simpl. rewrite length_insert. reflexivity.
Qed.

Lemma chains_seen_series_callback b i msg err st :
  chains_seen (series_callback b i msg err st) = chains_seen st.
Proof.
  destruct err as [e|].
  - rewrite series_callback_failure, chains_seen_each_callback.
    unfold chains_seen, chains. cbn [log emit record count pendingFetches
                                      timers batches].
    destruct (failure_signal_quiet e msg) as (_ & _ & _ & ->). reflexivity.
  - unfold series_callback. rewrite chains_seen_each_callback. reflexivity.
Qed.

Lemma chains_seen_deleteMessage b i msg st :
  chains_seen (_deleteMessage b i msg st) = chains_seen st.
Proof.
  unfold _deleteMessage, set_stage. cbn [batches record].
  destruct (batches st !! b); [|reflexivity].
  unfold chains_seen, chains. simpl. rewrite length_insert. reflexivity.
Qed.

Lemma chains_seen_handleMessage_callback b i msg err st :
  chains_seen (handleMessage_callback b i msg err st) = chains_seen st.
Proof.
  destruct err; simpl;
    [apply chains_seen_series_callback | apply chains_seen_deleteMessage].
Qed.

Lemma chains_seen_deleteMessage_callback b i msg err st :
  chains_seen (_deleteMessage_callback b i msg err st) = chains_seen st.
Proof. destruct err; simpl; apply chains_seen_series_callback. Qed.

Lemma chains_seen_processMessage b i msg st :
  chains_seen (_processMessage b i msg st) = chains_seen st.
Proof.
  rewrite processMessage_cases.
  destruct (call_handleMessage (this st) msg) as [e|[e|]|];
    rewrite ?chains_seen_series_callback, ?chains_seen_deleteMessage;
    reflexivity.
Qed.

Lemma chains_seen_each_from response : forall b i st,
  chains_seen (each_from b i response st) = chains_seen st.
Proof.
  induction response as [|msg rest IH]; intros b i st; simpl; [reflexivity|].
  rewrite IH. apply chains_seen_processMessage.
Qed.

Lemma chains_seen_handleQueueServiceResponse err response st :
  chains_seen (_handleQueueServiceResponse err response st)
  = S (chains_seen st).
Proof.
  unfold _handleQueueServiceResponse.
  set (st1 := match err with Some e => emit _ st | None => st end).
  assert (chains_seen st1 = chains_seen st) as <-
    by (subst st1; destruct err; reflexivity).
  assert (forall ms, chains_seen (setTimeout ms st1) = S (chains_seen st1))
    as Hto.
  { intros ms. unfold chains_seen, chains. simpl. rewrite length_app.
    simpl. lia. }
  destruct response as [[|msg rest]|].
  - destruct err as [e|]; [destruct (isAuthenticationError e)|]; apply Hto.
  - unfold each. rewrite chains_seen_each_from.
    unfold chains_seen, chains. simpl. rewrite length_app. simpl. lia.
  - destruct err as [e|]; [destruct (isAuthenticationError e)|]; apply Hto.
Qed.

Lemma chains_seen_step st ev st' :
  step st ev = Some st' ->
  chains_seen st'
  = (chains_seen st
     + match ev with
       | EStart => if stopped (this st) then 1 else 0
       | _ => 0
       end)%nat.
Proof.
  intros Hstep. destruct ev as [| |err response|i|b i err|b i err];
    simpl in Hstep.
  - injection Hstep as <-. unfold start.
    destruct (stopped (this st)); [|lia].
    rewrite chains_seen_poll. unfold chains_seen, chains. simpl. lia.
  - injection Hstep as <-. unfold chains_seen, chains. simpl. lia.
  - destruct (pendingFetches st) as [|n] eqn:Hp; [discriminate|].
    injection Hstep as <-. rewrite chains_seen_handleQueueServiceResponse.
    unfold chains_seen, chains. simpl. rewrite Hp. lia.
  - destruct (timers st !! i) eqn:Hi; [|discriminate].
    injection Hstep as <-. rewrite chains_seen_poll.
    assert (is_Some (timers st !! i)) as Hsome by eauto.
    pose proof (length_delete _ _ Hsome) as Hdel.
    apply lookup_lt_Some in Hi.
    unfold chains_seen, chains. simpl. lia.
  - destruct (item_of b i st) as [[msg [| |]]|]; try discriminate.
    injection Hstep as <-. rewrite chains_seen_handleMessage_callback. lia.
  - destruct (item_of b i st) as [[msg [| |]]|]; try discriminate.
    injection Hstep as <-. rewrite chains_seen_deleteMessage_callback. lia.
Qed.

(** X10: poll chains are conserved.  Every call of [start] that finds the
    consumer stopped begins one chain, nothing else does, and every chain
    is either still alive, as one outstanding fetch, timer or batch, or has
    ended with exactly one ['stopped'] signal. *)
Theorem poll_chains_are_conserved (st : State) (evs : list Event)
    (st' : State) :
  run st evs = Some st' ->
  (chains st' + count is_stopped_signal (log st')
   = chains st + count is_stopped_signal (log st)
     + restarts (stopped (this st)) evs)%nat.
Proof.
  fold (chains_seen st'). fold (chains_seen st).
  revert st. induction evs as [|ev evs IH]; intros st Hrun; simpl in Hrun.
  - injection Hrun as <-. simpl. lia.
  - destruct (step st ev) as [st1|] eqn:Hstep; [|discriminate].
    destruct (this_step st ev st1 Hstep) as (_ & Hflag).
    rewrite (IH st1 Hrun), (chains_seen_step st ev st1 Hstep), Hflag.
    destruct ev; simpl; lia.
Qed.

(** In the long scenario of the example the consumer is started twice
    while stopped: one chain has ended with ['stopped'], one is alive. *)
Lemma poll_chains_are_conserved_witness :
  (chains long_end + count is_stopped_signal (log long_end) = 2)%nat.
Proof.
  exact (poll_chains_are_conserved (initial example_consumer) long_scenario
           long_end long_run).
Defined.

(** ** When the consumer polls *)

Lemma poll_action_is_poll c : is_poll (poll_action c) = true.
Proof. unfold poll_action. destruct (stopped c); reflexivity. Qed.

Lemma count_poll_batch_end c e :
  batch_end c e -> count is_poll e = count is_response_processed e.
Proof.
  intros [-> | ->]; [reflexivity|]. cbn [count].
  rewrite poll_action_is_poll.
  destruct (poll_action_not_counted c) as (-> & _). reflexivity.
Qed.

Lemma count_poll_sync_log c response :
  count is_poll (sync_log c response []) = 0%nat.
Proof.
  apply count_quiet_sync_log; try reflexivity.
  intros e m. unfold failure_signal. destruct (String.eqb _ _); reflexivity.
Qed.

Lemma count_poll_step_actions st ev st' :
  step st ev = Some st' ->
  count is_poll (step_actions st ev)
  = (match ev with
     | EStart => if stopped (this st) then 1 else 0
     | _ => 0
     end + timer_expiries_of ev)%nat
  /\ count is_response_processed (step_actions st ev) = 0%nat.
Proof.
  intros Hstep. destruct ev as [| |err response|i|b i err|b i err];
    cbn [step_actions timer_expiries_of].
  - destruct (stopped (this st)); split; reflexivity.
  - split; reflexivity.
  - rewrite !count_app.
    replace (count is_poll match err with
                           | Some e => [Emit (SigError _ None)]
                           | None => []
                           end) with 0%nat by (destruct err; reflexivity).
    replace (count is_response_processed
               match err with
               | Some e => [Emit (SigError _ None)]
               | None => []
               end) with 0%nat by (destruct err; reflexivity).
    destruct response as [[|msg rest]|]; try (split; reflexivity).
    rewrite count_poll_sync_log.
    destruct (sync_log_quiet (this st) (msg :: rest) []) as (-> & _).
    split; reflexivity.
  - cbn [count]. rewrite poll_action_is_poll.
    destruct (poll_action_not_counted (this st)) as (-> & _).
    split; reflexivity.
  - destruct (item_of b i st) as [[msg stage]|]; [|split; reflexivity].
    destruct err as [e|]; [|split; reflexivity].
    unfold failure_signal. destruct (String.eqb _ _); split; reflexivity.
  - destruct (item_of b i st) as [[msg stage]|]; [|split; reflexivity].
    destruct err; split; reflexivity.
Qed.

(** X11: the consumer polls, that is fetches or else emits ['stopped'],
    exactly once for every call of [start] that finds it stopped, for every
    timer that expires and for every ['response_processed'] it emits, and
    at no other time. *)
Theorem polls_are_accounted (st : State) (evs : list Event) (st' : State) :
  run st evs = Some st' ->
  (count is_poll (log st') + count is_response_processed (log st)
   = count is_poll (log st) + count is_response_processed (log st')
     + restarts (stopped (this st)) evs + tally timer_expiries_of evs)%nat.
Proof.
  revert st. induction evs as [|ev evs IH]; intros st Hrun; simpl in Hrun.
  - injection Hrun as <-. simpl. lia.
  - destruct (step st ev) as [st1|] eqn:Hstep; [|discriminate].
    destruct (this_step st ev st1 Hstep) as (_ & Hflag).
    destruct (log_step st ev st1 Hstep) as (e & He & Hlog).
    destruct (count_poll_step_actions st ev st1 Hstep) as (Hpoll & Hrp).
    pose proof (count_poll_batch_end _ _ He) as Hend.
    pose proof (IH st1 Hrun) as Hrest.
    rewrite Hflag in Hrest. rewrite Hlog, !count_app, Hpoll, Hrp in Hrest.
    destruct ev; simpl in *; destruct (stopped (this st)); lia.
Qed.

(** The long scenario of the example: two starts that count, one timer and
    one batch make four polls. *)
Lemma polls_are_accounted_witness :
  count is_poll (log long_end) = 4%nat.
Proof.
  exact (polls_are_accounted (initial example_consumer) long_scenario
           long_end long_run).
Defined.
